(** * The packet writer of minecraft/protocol (writer.go)

    A shallow embedding of [protocol.Writer]: the variable-length integer
    writers, strings, block positions, UUIDs, entity metadata and item
    stacks, with the byte sink and the Go heap (for slices that may alias
    their backing array) as explicit state, and panics as an outcome. *)

From Stdlib Require Import ZArith Lia.
From stdpp Require Import base gmap list strings.
From Equations Require Import Equations.

Local Open Scope Z_scope.

(** ** Machine integers

    Go's fixed-width integers are integers of [Z] kept in range by the
    conversions below, which is where the wrap-around happens. *)

Definition uint8  (z : Z) : Z := z mod 2^8.
Definition uint32 (z : Z) : Z := z mod 2^32.
Definition uint64 (z : Z) : Z := z mod 2^64.
Definition int16  (z : Z) : Z := (z + 2^15) mod 2^16 - 2^15.
Definition int32  (z : Z) : Z := (z + 2^31) mod 2^32 - 2^31.

(** [byte(x)] is the conversion to uint8. *)
Definition byte (z : Z) : Z := uint8 z.

(** ** State, outcomes and the writer monad *)

(** A location of the Go heap holds a backing array. *)
Definition loc := nat.

(** The sink [w.w] is a growing buffer; [heap] holds the arrays that slices
    point into. *)
Record state := State {
  out  : list Z;
  heap : gmap loc (list Z)
}.

(** What a panic carries: an [error] value (from [fmt.Errorf] or returned by
    the NBT encoder) or a run-time error of Go itself. *)
Inductive panic_value :=
| GoError (msg : string)
| RuntimeError (msg : string).

Inductive outcome (A : Type) :=
| Ret (a : A)
| Panic (e : panic_value).
Arguments Ret {A} a.
Arguments Panic {A} e.

Definition W (A : Type) : Type := state -> outcome A * state.

Definition ret {A} (a : A) : W A := fun s => (Ret a, s).

Definition bind {A B} (m : W A) (k : A -> W B) : W B :=
  fun s =>
    match m s with
    | (Ret a, s') => k a s'
    | (Panic e, s') => (Panic e, s')
    end.

Definition panic {A} (e : panic_value) : W A := fun s => (Panic e, s).

Notation "x <- m ;; k" := (bind m (fun x => k))
  (at level 100, m at next level, right associativity, only parsing).
Notation "m ;; k" := (bind m (fun _ => k))
  (at level 100, right associativity, only parsing).

(** [for _, v := range l { body v }] over a slice that the body leaves
    alone. *)
Fixpoint range {A} (l : list A) (body : A -> W unit) : W unit :=
  match l with
  | [] => ret tt
  | v :: l' => body v ;; range l' body
  end.

(** ** The sink: io.Writer and io.ByteWriter

    Both append; the errors they return are dropped by every caller
    ([_ = w.w.WriteByte(..)]). *)

Definition WriteByte (c : Z) : W unit :=
  fun s => (Ret tt, State (out s ++ [c]) (heap s)).

Definition Write (p : list Z) : W unit :=
  fun s => (Ret tt, State (out s ++ p) (heap s)).

(** The bytes of a Go string. *)
Definition bytes_of_string (x : string) : list Z :=
  (fun c => Z.of_N (Ascii.N_of_ascii c)) <$> String.list_ascii_of_string x.

(** ** Actions that only append to the sink *)

(** [writes m a bs]: from every state, [m] returns [a] after appending
    exactly [bs], and touches nothing else. *)
Definition writes {A} (m : W A) (a : A) (bs : list Z) : Prop :=
  forall s, m s = (Ret a, State (out s ++ bs) (heap s)).

(** The bytes an action appends to an empty sink. *)
Definition emitted {A} (m : W A) : list Z := out (snd (m (State [] ∅))).

(** ** Slices over the Go heap

    A slice is a window [off, off+len) of a backing array, with room up to
    [off+cap); two slices of one array share its elements. *)

Record slice := Slice {
  arr : loc;
  off : nat;
  len : nat;
  cap : nat
}.

(** [x[lo:hi]] through a pointer [x] to an array of [n] elements. The
    capacity runs to the end of the array. *)
Definition slice_array (x : loc) (n lo hi : nat) : slice :=
  Slice x lo (hi - lo) (n - lo).

(** The elements of a slice, as [Write(b)] or [t...] reads them. *)
Definition load (b : slice) : W (list Z) :=
  fun s =>
    match heap s !! arr b with
    | Some a =>
        if decide (off b + len b <= length a)%nat
        then (Ret (take (len b) (drop (off b) a)), s)
        else (Panic (RuntimeError "slice bounds out of range"), s)
    | None => (Panic (RuntimeError "nil pointer dereference"), s)
    end.

(** [b[i]] as a value. *)
Definition index (b : slice) (i : Z) : W Z :=
  fun s =>
    match heap s !! arr b with
    | Some a =>
        if decide (0 <= i < Z.of_nat (len b)) then
          match a !! (off b + Z.to_nat i)%nat with
          | Some v => (Ret v, s)
          | None => (Panic (RuntimeError "index out of range"), s)
          end
        else (Panic (RuntimeError "index out of range"), s)
    | None => (Panic (RuntimeError "nil pointer dereference"), s)
    end.

(** [b[i] = v]. *)
Definition set_index (b : slice) (i : Z) (v : Z) : W unit :=
  fun s =>
    match heap s !! arr b with
    | Some a =>
        if decide (0 <= i < Z.of_nat (len b) /\ (off b + Z.to_nat i < length a)%nat)
        then (Ret tt, State (out s) (<[arr b := <[(off b + Z.to_nat i)%nat := v]> a]> (heap s)))
        else (Panic (RuntimeError "index out of range"), s)
    | None => (Panic (RuntimeError "nil pointer dereference"), s)
    end.

(** A new array at a location that is not in use. *)
Definition alloc (a : list Z) : W loc :=
  fun s =>
    let l := fresh (dom (heap s)) in
    (Ret l, State (out s) (<[l := a]> (heap s))).

(** Overwrite the elements of array [l] from position [p] on. *)
Definition store_at (l : loc) (p : nat) (vs : list Z) : W unit :=
  fun s =>
    match heap s !! l with
    | Some a => (Ret tt, State (out s) (<[l := list_inserts p vs a]> (heap s)))
    | None => (Panic (RuntimeError "nil pointer dereference"), s)
    end.

(** [append(b, t...)]: in place when the capacity of [b] has room for the
    elements of [t], otherwise into a new array that is large enough;
    [growcap] is the capacity the run time would like for it. *)
Definition append (growcap : nat -> nat -> nat) (b t : slice) : W slice :=
  vs <- load t ;;
  let need := (len b + length vs)%nat in
  if decide (need <= cap b)%nat then
    store_at (arr b) (off b + len b) vs ;;
    ret (Slice (arr b) (off b) need (cap b))
  else
    old <- load b ;;
    let newcap := Nat.max need (growcap (cap b) need) in
    l <- alloc (old ++ vs ++ replicate (newcap - need) 0) ;;
    ret (Slice l 0 need newcap).

(** ** The data of package protocol *)

Module protocol.

(** BlockPos is [3]int32. *)
Record BlockPos := mkBlockPos { bp0 : Z; bp1 : Z; bp2 : Z }.

(** mgl32.Vec3 is [3]float32; a float32 is kept as its 32 bits. *)
Record Vec3 := mkVec3 { v0 : Z; v1 : Z; v2 : Z }.

(** A value of type [interface{}], by its dynamic type: the nine types
    that the entity metadata knows, and [AOther t] for a value of any
    other dynamic type [t] (the result of [reflect.TypeOf], or <nil>). *)
#[warnings="-register-all"] Inductive any : Type :=
| AByte (v : Z)
| AInt16 (v : Z)
| AInt32 (v : Z)
| AFloat32 (v : Z)
| AString (v : string)
| ACompound (v : gmap string any)
| ABlockPos (v : BlockPos)
| AInt64 (v : Z)
| AVec3 (v : Vec3)
| AOther (t : string).

(** An item stack; see [Externals] for the type of [MetadataValue]. *)
Record ItemStack := mkItemStack {
  NetworkID : Z;
  MetadataValue : Z;
  Count : Z;
  NBTData : gmap string any;
  CanBePlacedOn : list string;
  CanBreak : list string
}.

End protocol.

(** color.RGBA of package image/color: four uint8 channels. *)
Module color.

Record RGBA := mkRGBA { R : Z; G : Z; B : Z; A : Z }.

End color.

(** ** The packets of package packet *)

Module packet.

(** MobArmourEquipment is sent by the server to the client to update the
    armour an entity is wearing. *)
Record MobArmourEquipment := mkMobArmourEquipment {
  MAE_EntityRuntimeID : Z;
  Helmet : protocol.ItemStack;
  Chestplate : protocol.ItemStack;
  Leggings : protocol.ItemStack;
  Boots : protocol.ItemStack
}.

(** BlockActorData is sent by the server to update data of a block entity
    client-side. *)
Record BlockActorData := mkBlockActorData {
  Position : protocol.BlockPos;
  BAD_NBTData : gmap string protocol.any
}.

(** ContainerClose closes a container; WindowID is a byte. *)
Record ContainerClose := mkContainerClose {
  WindowID : Z
}.

End packet.

(** ** What the writer takes from elsewhere

    The sources of [Writer.Int16] and [Writer.Float32], of the entity data
    type constants, of the declaration of [ItemStack] and of package nbt are
    not part of this development; they are parameters of it. *)
Class Externals := {
  (** The fixed-width encodings of an int16 and of a float32. *)
  Int16_bytes : Z -> list Z;
  Float32_bytes : Z -> list Z;
  (** The type constants written before each entity metadata value. *)
  entityDataByte : Z;
  entityDataInt16 : Z;
  entityDataInt32 : Z;
  entityDataFloat32 : Z;
  entityDataString : Z;
  entityDataCompoundTag : Z;
  entityDataBlockPos : Z;
  entityDataInt64 : Z;
  entityDataVec3 : Z;
  (** The wrap-around of the integer type that [ItemStack] declares for
      [MetadataValue]. *)
  metadata_int : Z -> Z;
  (** Package nbt: the encodings, and what
      [NewEncoderWithEncoding(w, e).Encode(v)] writes to [w] and returns. *)
  nbt_Encoding : Type;
  nbt_NetworkLittleEndian : nbt_Encoding;
  nbt_Encode : nbt_Encoding -> protocol.any -> list Z * option string;
  (** The capacity that [append] picks for a new array, from the old
      capacity and the length needed. *)
  growcap : nat -> nat -> nat
}.

(** An instance for running the writer on examples: little-endian fixed
    widths, the tag numbers 0 to 8, 16-bit metadata, an NBT encoder that
    writes an empty compound for every map and refuses the map with the one
    key "bad", and doubling of capacities. *)
Module Sample.

Definition le_bytes (n : nat) (z : Z) : list Z :=
  (fun i => Z.shiftr z (8 * Z.of_nat i) mod 256) <$> seq 0 n.

Definition encode (v : protocol.any) : list Z * option string :=
  match v with
  | protocol.ACompound m =>
      if decide (dom m = {["bad"]}) then ([10], Some "nbt: cannot encode")
      else ([10; 0; 0], None)
  | _ => ([], Some "nbt: not a compound")
  end.

Definition ext : Externals := {|
  Int16_bytes := le_bytes 2;
  Float32_bytes := le_bytes 4;
  entityDataByte := 0;
  entityDataInt16 := 1;
  entityDataInt32 := 2;
  entityDataFloat32 := 3;
  entityDataString := 4;
  entityDataCompoundTag := 5;
  entityDataBlockPos := 6;
  entityDataInt64 := 7;
  entityDataVec3 := 8;
  metadata_int := int16;
  nbt_Encoding := unit;
  nbt_NetworkLittleEndian := tt;
  nbt_Encode := fun _ => encode;
  growcap := fun old need => (2 * old)%nat
|}.

Definition s0 : state := State [] ∅.

(** A shield with two blocks to be placed on and one to break; a stack
    with a nested record; a stack whose record [encode] refuses; an empty
    slot; a stack with one block to be placed on. *)
Definition shield : protocol.ItemStack :=
  protocol.mkItemStack 513 2 3 ∅ ["a"; "bc"] ["d"].
Definition tagged : protocol.ItemStack :=
  protocol.mkItemStack 5 2 3 {["x" := protocol.AByte 1]} ["a"; "bc"] ["d"].
Definition refused : protocol.ItemStack :=
  protocol.mkItemStack 513 2 3 {["bad" := protocol.AByte 1]} ["a"; "bc"] ["d"].
Definition air : protocol.ItemStack :=
  protocol.mkItemStack 0 2 3 {["x" := protocol.AByte 1]} ["a"] [].
Definition stone : protocol.ItemStack :=
  protocol.mkItemStack 1 0 1 ∅ ["a"] [].

(** A heap with the identifier 00 01 .. 0f at location 3. *)
Definition id_bytes : list Z := [0; 1; 2; 3; 4; 5; 6; 7; 8; 9; 10; 11; 12; 13; 14; 15].
Definition id_state : state := State [] {[ 3%nat := id_bytes ]}.

(** An attribute map with a bool among its values. *)
Definition attrs : gmap Z protocol.any :=
  {[ 7 := protocol.AOther "bool" ]}.

(** Armour with a shield as helmet and a refused stack as leggings; a
    block actor at height 64 with one entry of data. *)
Definition armour : packet.MobArmourEquipment :=
  packet.mkMobArmourEquipment 300 shield air stone tagged.
Definition broken_armour : packet.MobArmourEquipment :=
  packet.mkMobArmourEquipment 300 shield air refused tagged.
Definition chest : packet.BlockActorData :=
  packet.mkBlockActorData (protocol.mkBlockPos (-1) 64 2) {["x" := protocol.AByte 1]}.


End Sample.

(** ** The wire format in the words of the protocol description *)

(** Zig-zag: shift left by one bit and complement when the value was
    negative. *)
Definition zigzag (x : Z) : Z :=
  if x <? 0 then Z.lnot (Z.shiftl x 1) else Z.shiftl x 1.

(** LEB128 of a non-negative [u]: the number of 7-bit groups, and the byte
    of group [i], whose high bit says that more bytes follow. *)
Definition leb128_len (u : Z) : nat := S (Z.to_nat (Z.log2 u / 7)).

Definition leb128_byte (u : Z) (n i : nat) : Z :=
  Z.land (Z.shiftr u (7 * Z.of_nat i)) 127 + (if (S i <? n)%nat then 128 else 0).

Definition leb128 (u : Z) : list Z :=
  leb128_byte u (leb128_len u) <$> seq 0 (leb128_len u).

(** The ranges of int32 and int64. *)
Definition in_int32 (x : Z) : Prop := -2^31 <= x < 2^31.
Definition in_int64 (x : Z) : Prop := -2^63 <= x < 2^63.

(** * The writer *)

Module Writer.
Section Writer.
Context {ext : Externals}.

(** ** Varints *)

(** The loop [for u >= 0x80 { WriteByte(byte(u) | 0x80); u >>= 7 }]; it
    returns the value of [u] on exit. *)
Equations? varuint_for (u : Z) : W Z by wf (Z.to_nat (Z.log2 u)) lt :=
  varuint_for u with Z_le_dec 128 u := {
    | left _ => WriteByte (Z.lor (byte u) 128) ;; varuint_for (Z.shiftr u 7)
    | right _ => ret u }.
Proof.
  rewrite Z.log2_shiftr by lia.
  assert (Z.log2 128 <= Z.log2 u) by (apply Z.log2_le_mono; lia).
  change (Z.log2 128) with 7 in *. lia.
Qed.

(** Varint64 writes an int64 as 1-10 bytes to the underlying buffer. *)
Definition Varint64 (x : Z) : W unit :=
  let u := x in
  let ux := uint64 (Z.shiftl (uint64 u) 1) in
  let ux := if u <? 0 then uint64 (Z.lnot ux) else ux in
  ux <- varuint_for ux ;;
  WriteByte (byte ux).

(** Varuint64 writes a uint64 as 1-10 bytes to the underlying buffer. *)
Definition Varuint64 (x : Z) : W unit :=
  let u := x in
  u <- varuint_for u ;;
  WriteByte (byte u).

(** Varint32 writes an int32 as 1-5 bytes to the underlying buffer. *)
Definition Varint32 (x : Z) : W unit :=
  let u := x in
  let ux := uint32 (Z.shiftl (uint32 u) 1) in
  let ux := if u <? 0 then uint32 (Z.lnot ux) else ux in
  ux <- varuint_for ux ;;
  WriteByte (byte ux).

(** Varuint32 writes a uint32 as 1-5 bytes to the underlying buffer. *)
Definition Varuint32 (x : Z) : W unit :=
  let u := x in
  u <- varuint_for u ;;
  WriteByte (byte u).

(** Uint8 writes a uint8 to the underlying buffer. *)
Definition Uint8 (x : Z) : W unit := WriteByte x.

(** String writes a string, prefixed with a varuint32, to the underlying
    buffer. *)
Definition String (x : string) : W unit :=
  let l := uint32 (Z.of_nat (length (bytes_of_string x))) in
  Varuint32 l ;;
  Write (bytes_of_string x).

(** BlockPos writes a BlockPos as 3 varint32s to the underlying buffer. *)
Definition BlockPos (x : protocol.BlockPos) : W unit :=
  Varint32 (protocol.bp0 x) ;;
  Varint32 (protocol.bp1 x) ;;
  Varint32 (protocol.bp2 x).

(** UBlockPos writes a BlockPos as 2 varint32s and a varuint32 to the
    underlying buffer. *)
Definition UBlockPos (x : protocol.BlockPos) : W unit :=
  Varint32 (protocol.bp0 x) ;;
  let y := uint32 (protocol.bp1 x) in
  Varuint32 y ;;
  Varint32 (protocol.bp2 x).

(** [b[i], b[j] = b[j], b[i]]: both operands are read before either
    element is assigned. *)
Definition swap (b : slice) (i j : Z) : W unit :=
  vj <- index b j ;;
  vi <- index b i ;;
  set_index b i vj ;;
  set_index b j vi.

(** The loop [for i, j := 0, 15; i < j; i, j = i+1, j-1] of UUID, from
    any [i] and [j]. *)
Equations? reverse_for (b : slice) (i j : Z) : W unit by wf (Z.to_nat (j - i)) lt :=
  reverse_for b i j with Z_lt_dec i j := {
    | left _ => swap b i j ;; reverse_for b (i + 1) (j - 1)
    | right _ => ret tt }.
Proof. lia. Qed.

(** UUID writes a UUID to the underlying buffer. [x] points to the 16 bytes
    of the uuid.UUID. *)
Definition UUID (x : loc) : W unit :=
  b <- append growcap (slice_array x 16 8 16) (slice_array x 16 0 8) ;;
  reverse_for b 0 15 ;;
  p <- load b ;;
  Write p.

(** Modelled from the spec: [Writer.Int16], whose source is not part of
    this development. It is a fixed-width numeric of the primitive codec,
    and a write appends and never fails; the bytes are [Int16_bytes]. *)
Definition Int16 (x : Z) : W unit := Write (Int16_bytes x).

(** Modelled from the spec: [Writer.Float32], whose source is not part of
    this development either; as for [Int16], with [Float32_bytes]. *)
Definition Float32 (x : Z) : W unit := Write (Float32_bytes x).

(** Vec3 writes an mgl32.Vec3 as 3 float32s to the underlying buffer. *)
Definition Vec3 (x : protocol.Vec3) : W unit :=
  Float32 (protocol.v0 x) ;;
  Float32 (protocol.v1 x) ;;
  Float32 (protocol.v2 x).

(** [nbt.NewEncoderWithEncoding(w.w, encoding).Encode(v)]. *)
Definition nbt_Encoder_Encode (encoding : nbt_Encoding) (v : protocol.any)
  : W (option string) :=
  Write (fst (nbt_Encode encoding v)) ;;
  ret (snd (nbt_Encode encoding v)).

(** NBT writes a map as NBT to the underlying buffer using the encoding
    passed. *)
Definition NBT (x : gmap string protocol.any) (encoding : nbt_Encoding) : W unit :=
  err <- nbt_Encoder_Encode encoding (protocol.ACompound x) ;;
  match err with
  | Some e => panic (GoError e)
  | None => ret tt
  end.

(** [fmt.Errorf] with the format of UnknownEnumOption. *)
Definition Errorf_unknown_enum (value enum : string) : panic_value :=
  GoError ("unknown value '" +:+ value +:+ "' for enum type '" +:+ enum +:+ "'").

(** panicf panics with the format and values passed. *)
Definition panicf {A} (e : panic_value) : W A := panic e.

(** UnknownEnumOption panics with an unknown enum option error. *)
Definition UnknownEnumOption (value enum : string) : W unit :=
  panicf (Errorf_unknown_enum value enum).

(** EntityMetadata writes an entity metadata map x to the underlying
    buffer. [order] is the order in which [range] visits the map. *)
Definition EntityMetadata (x : gmap Z protocol.any)
    (order : list (Z * protocol.any)) : W unit :=
  let l := uint32 (Z.of_nat (size x)) in
  Varuint32 l ;;
  range order (fun '(key, value) =>
    Varuint32 key ;;
    match value with
    | protocol.AByte v =>
        Varuint32 entityDataByte ;;
        Uint8 v
    | protocol.AInt16 v =>
        Varuint32 entityDataInt16 ;;
        Int16 v
    | protocol.AInt32 v =>
        Varuint32 entityDataInt32 ;;
        Varint32 v
    | protocol.AFloat32 v =>
        Varuint32 entityDataFloat32 ;;
        Float32 v
    | protocol.AString v =>
        Varuint32 entityDataString ;;
        String v
    | protocol.ACompound v =>
        Varuint32 entityDataCompoundTag ;;
        NBT v nbt_NetworkLittleEndian
    | protocol.ABlockPos v =>
        Varuint32 entityDataBlockPos ;;
        BlockPos v
    | protocol.AInt64 v =>
        Varuint32 entityDataInt64 ;;
        Varint64 v
    | protocol.AVec3 v =>
        Varuint32 entityDataVec3 ;;
        Vec3 v
    | protocol.AOther t =>
        UnknownEnumOption t "entity metadata"
    end).

Definition shieldID : Z := 513.

(** Item writes an ItemStack x to the underlying buffer. *)
Definition Item (x : protocol.ItemStack) : W unit :=
  Varint32 (protocol.NetworkID x) ;;
  if decide (protocol.NetworkID x = 0) then
    (* The item was air, so there's no more data to follow. *)
    ret tt
  else
    let aux := Z.lor (int32 (metadata_int (Z.shiftl (protocol.MetadataValue x) 8)))
                     (int32 (protocol.Count x)) in
    Varint32 aux ;;
    (if decide (size (protocol.NBTData x) <> 0%nat) then
       let userDataMarker := int16 (-1) in
       let userDataVer := uint8 1 in
       Int16 userDataMarker ;;
       Uint8 userDataVer ;;
       NBT (protocol.NBTData x) nbt_NetworkLittleEndian
     else
       let userDataMarker := int16 0 in
       Int16 userDataMarker) ;;
    let placeOnLen := int32 (Z.of_nat (length (protocol.CanBePlacedOn x))) in
    let canBreak := int32 (Z.of_nat (length (protocol.CanBreak x))) in
    Varint32 placeOnLen ;;
    range (protocol.CanBePlacedOn x) (fun block => String block) ;;
    Varint32 canBreak ;;
    range (protocol.CanBreak x) (fun block => String block) ;;
    if decide (protocol.NetworkID x = shieldID) then
      let blockingTick := 0 in
      Varint64 blockingTick
    else ret tt.

(** ** The layout of an item stack on the wire *)

(** The aux word: metadata shifted left by 8 bits, or-ed with the count. *)
Definition item_aux (x : protocol.ItemStack) : Z :=
  Z.lor (int32 (metadata_int (Z.shiftl (protocol.MetadataValue x) 8)))
        (int32 (protocol.Count x)).

(** The nested record of [x] is absent, or the tree encoder returns no
    error for it. *)
Definition nbt_ok (x : protocol.ItemStack) : Prop :=
  size (protocol.NBTData x) = 0%nat \/
  snd (nbt_Encode nbt_NetworkLittleEndian (protocol.ACompound (protocol.NBTData x))) = None.

(** The nested-record marker: -1, version 1 and the record when there is
    one, 0 otherwise. *)
Definition marker_wire (x : protocol.ItemStack) : list Z :=
  if decide (size (protocol.NBTData x) <> 0%nat) then
    Int16_bytes (-1) ++ [1] ++
    fst (nbt_Encode nbt_NetworkLittleEndian (protocol.ACompound (protocol.NBTData x)))
  else Int16_bytes 0.

(** A sequence of strings behind its length, the length encoded by
    [lenenc]. *)
Definition sequence_wire (lenenc : Z -> list Z) (l : list string) : list Z :=
  lenenc (Z.of_nat (length l)) ++ concat ((fun v => emitted (String v)) <$> l).

(** A length as [Item] writes it: the zig-zag varint of the length
    converted to int32. *)
Definition signed_length (n : Z) : list Z := leb128 (zigzag (int32 n)).

(** Identifier and aux word. *)
Definition item_head_wire (x : protocol.ItemStack) : list Z :=
  emitted (Varint32 (protocol.NetworkID x)) ++ emitted (Varint32 (item_aux x)).

(** The fields of a non-empty item stack up to and including the CanBreak
    sequence. *)
Definition item_wire (lenenc : Z -> list Z) (x : protocol.ItemStack) : list Z :=
  item_head_wire x ++ marker_wire x ++
  sequence_wire lenenc (protocol.CanBePlacedOn x) ++
  sequence_wire lenenc (protocol.CanBreak x).

(** ** The other writers *)

(** Bool writes a bool as either 0 or 1 to the underlying buffer. *)
Definition Bool (x : bool) : W unit :=
  if x then WriteByte 1 else WriteByte 0.

(** ByteSlice writes a []byte, prefixed with a varuint32, to the underlying
    buffer. *)
Definition ByteSlice (x : list Z) : W unit :=
  let l := uint32 (Z.of_nat (length x)) in
  Varuint32 l ;;
  Write x.

(** Bytes appends a []byte to the underlying buffer. *)
Definition Bytes (x : list Z) : W unit := Write x.

(** VarRGBA writes a color.RGBA x as a varuint32 to the underlying buffer. *)
Definition VarRGBA (x : color.RGBA) : W unit :=
  let val :=
    Z.lor (Z.lor (Z.lor (uint32 (color.R x))
                        (uint32 (Z.shiftl (uint32 (color.G x)) 8)))
                 (uint32 (Z.shiftl (uint32 (color.B x)) 16)))
          (uint32 (Z.shiftl (uint32 (color.A x)) 24)) in
  Varuint32 val.

(** ** Marshal of the packets *)

Definition MobArmourEquipment_Marshal (pk : packet.MobArmourEquipment) : W unit :=
  Varuint64 (packet.MAE_EntityRuntimeID pk) ;;
  Item (packet.Helmet pk) ;;
  Item (packet.Chestplate pk) ;;
  Item (packet.Leggings pk) ;;
  Item (packet.Boots pk).

Definition BlockActorData_Marshal (pk : packet.BlockActorData) : W unit :=
  UBlockPos (packet.Position pk) ;;
  NBT (packet.BAD_NBTData pk) nbt_NetworkLittleEndian.

Definition ContainerClose_Marshal (pk : packet.ContainerClose) : W unit :=
  Uint8 (packet.WindowID pk).

(** ** Notions for the statements below *)

(** [appends m]: whatever [m] does, also when it panics, the bytes that
    were in the sink stay in front of what it wrote, and the heap is as it
    was. *)
Definition appends {A} (m : W A) : Prop :=
  forall s, exists bs,
    out (snd (m s)) = out s ++ bs /\ heap (snd (m s)) = heap s.

(** A value that the loop of [EntityMetadata] writes without a panic: of
    one of the nine types, and accepted by the tree encoder when it is a
    nested record. *)
Definition entry_ok (value : protocol.any) : Prop :=
  match value with
  | protocol.AOther _ => False
  | protocol.ACompound v =>
      snd (nbt_Encode nbt_NetworkLittleEndian (protocol.ACompound v)) = None
  | _ => True
  end.

(** The range of the channels of a colour. *)
Definition in_uint8 (x : Z) : Prop := 0 <= x < 2^8.

(** Reading an unsigned varint off the front of a byte sequence: the value
    and the bytes after it. *)
Fixpoint uvarint (l : list Z) : option (Z * list Z) :=
  match l with
  | [] => None
  | b :: l' =>
      if b <? 128 then Some (b, l')
      else match uvarint l' with
           | Some (v, r) => Some (Z.land b 127 + 128 * v, r)
           | None => None
           end
  end.

(** The body of the loop of [EntityMetadata], named: what is done for one
    entry of the map. *)
Definition EntityMetadata_entry (entry : Z * protocol.any) : W unit :=
  let '(key, value) := entry in
  Varuint32 key ;;
  match value with
  | protocol.AByte v => Varuint32 entityDataByte ;; Uint8 v
  | protocol.AInt16 v => Varuint32 entityDataInt16 ;; Int16 v
  | protocol.AInt32 v => Varuint32 entityDataInt32 ;; Varint32 v
  | protocol.AFloat32 v => Varuint32 entityDataFloat32 ;; Float32 v
  | protocol.AString v => Varuint32 entityDataString ;; String v
  | protocol.ACompound v =>
      Varuint32 entityDataCompoundTag ;; NBT v nbt_NetworkLittleEndian
  | protocol.ABlockPos v => Varuint32 entityDataBlockPos ;; BlockPos v
  | protocol.AInt64 v => Varuint32 entityDataInt64 ;; Varint64 v
  | protocol.AVec3 v => Varuint32 entityDataVec3 ;; Vec3 v
  | protocol.AOther t => UnknownEnumOption t "entity metadata"
  end.

(** An item stack that [Item] writes without a panic. *)
Definition item_ok (x : protocol.ItemStack) : Prop :=
  protocol.NetworkID x = 0 \/ nbt_ok x.

(** ** Proofs

    *** Composing actions that only append *)

Lemma writes_ret {A} (a : A) : writes (ret a) a [].
Proof. intros [o h]. unfold ret. cbn. by rewrite app_nil_r. Qed.

Lemma writes_bind {A B} (m : W A) (k : A -> W B) a b bs1 bs2 :
  writes m a bs1 -> writes (k a) b bs2 -> writes (bind m k) b (bs1 ++ bs2).
Proof.
  intros Hm Hk s. unfold bind. rewrite Hm, Hk. cbn. by rewrite app_assoc.
Qed.

Lemma writes_WriteByte c : writes (WriteByte c) tt [c].
Proof. by intros s. Qed.

Lemma writes_Write p : writes (Write p) tt p.
Proof. by intros s. Qed.

Lemma bind_writes {A B} (m : W A) (k : A -> W B) a bs s :
  writes m a bs -> bind m k s = k a (State (out s ++ bs) (heap s)).
Proof. intros H. unfold bind. by rewrite H. Qed.

Lemma bind_Ret {A B} (m : W A) (k : A -> W B) a s s' :
  m s = (Ret a, s') -> bind m k s = k a s'.
Proof. intros H. unfold bind. by rewrite H. Qed.

Lemma bind_Panic {A B} (m : W A) (k : A -> W B) e s s' :
  m s = (Panic e, s') -> bind m k s = (Panic e, s').
Proof. intros H. unfold bind. by rewrite H. Qed.

Lemma writes_emitted {A} (m : W A) a bs : writes m a bs -> emitted m = bs.
Proof. intros H. unfold emitted. by rewrite H. Qed.

Lemma writes_range {A} (l : list A) (body : A -> W unit) (f : A -> list Z) :
  (forall v, v ∈ l -> writes (body v) tt (f v)) ->
  writes (range l body) tt (concat (f <$> l)).
Proof.
  induction l as [|v l IH]; intros H; cbn.
  - apply writes_ret.
  - apply (writes_bind _ _ tt).
    + apply H. by left.
    + apply IH. intros w Hw. apply H. by right.
Qed.

(** *** The varint loop writes LEB128 *)

Lemma lor_continuation_bit b : 0 <= b < 256 -> Z.lor b 128 = b mod 128 + 128.
Proof.
  intros Hb.
  assert (Hall : forallb (fun n => Z.lor (Z.of_nat n) 128 =? Z.of_nat n mod 128 + 128)
                   (seq 0 256) = true) by (vm_compute; reflexivity).
  rewrite forallb_forall in Hall.
  specialize (Hall (Z.to_nat b)). rewrite Z2Nat.id in Hall by lia.
  apply Z.eqb_eq, Hall, in_seq. lia.
Qed.

Lemma byte_continuation u : Z.lor (byte u) 128 = Z.land u 127 + 128.
Proof.
  unfold byte, uint8.
  rewrite lor_continuation_bit by (apply Z.mod_pos_bound; lia).
  change 127 with (Z.ones 7). rewrite Z.land_ones by lia.
  f_equal. change (2 ^ 8) with (2 * 2 ^ 7).
  rewrite Z.mul_comm, Z.rem_mul_r by lia.
  rewrite Z.mul_comm, Z.mod_add by lia. apply Z.mod_mod. lia.
Qed.

Lemma leb128_len_small u : u < 128 -> leb128_len u = 1%nat.
Proof.
  intros Hu. unfold leb128_len. f_equal.
  destruct (Z.le_gt_cases u 0) as [H0|H0].
  - by rewrite Z.log2_nonpos.
  - assert (Z.log2 u < 7) by (apply Z.log2_lt_pow2; lia).
    pose proof (Z.log2_nonneg u).
    rewrite Z.div_small by lia. done.
Qed.

Lemma leb128_len_step u : 128 <= u -> leb128_len u = S (leb128_len (Z.shiftr u 7)).
Proof.
  intros Hu. unfold leb128_len. f_equal.
  rewrite Z.log2_shiftr by lia.
  assert (Z.log2 128 <= Z.log2 u) by (apply Z.log2_le_mono; lia).
  change (Z.log2 128) with 7 in *.
  rewrite Z.max_r by lia.
  replace (Z.log2 u) with ((Z.log2 u - 7) + 1 * 7) at 1 by lia.
  rewrite Z.div_add by lia.
  assert (0 <= (Z.log2 u - 7) / 7) by (apply Z.div_pos; lia).
  rewrite Z2Nat.inj_add by lia. cbn. lia.
Qed.

Lemma leb128_small u : 0 <= u < 128 -> leb128 u = [u].
Proof.
  intros Hu. unfold leb128. rewrite leb128_len_small by lia. cbn.
  unfold leb128_byte. cbn. rewrite Z.shiftr_0_r.
  change 127 with (Z.ones 7). rewrite Z.land_ones by lia.
  rewrite Z.mod_small by lia. f_equal. lia.
Qed.

Lemma leb128_step u :
  128 <= u -> leb128 u = (Z.land u 127 + 128) :: leb128 (Z.shiftr u 7).
Proof.
  intros Hu. unfold leb128. rewrite (leb128_len_step u Hu).
  unfold leb128_len. generalize (Z.to_nat (Z.log2 (Z.shiftr u 7) / 7)). intros m.
  change (seq 0 (S (S m))) with (0%nat :: seq 1 (S m)).
  rewrite fmap_cons. f_equal.
  rewrite <- seq_shift, <- list_fmap_compose.
  apply list_fmap_ext. intros i x _. unfold compose, leb128_byte.
  rewrite Z.shiftr_shiftr by lia.
  replace (7 + 7 * Z.of_nat x) with (7 * Z.of_nat (S x)) by lia.
  done.
Qed.

Lemma writes_varuint_for u :
  0 <= u ->
  exists u' pre, writes (varuint_for u) u' pre /\ leb128 u = pre ++ [byte u'].
Proof.
  funelim (varuint_for u); intros Hu.
  - destruct (H tt (State [] ∅) ltac:(apply Z.shiftr_nonneg; lia))
      as (u' & pre & Hw & Hl).
    exists u', ((Z.land u 127 + 128) :: pre). split.
    + rewrite <- byte_continuation.
      apply (writes_bind _ _ tt u' [_] pre); [apply writes_WriteByte | apply Hw].
    + rewrite leb128_step by lia. by rewrite Hl.
  - exists u, []. split; [apply writes_ret|].
    rewrite leb128_small by lia. unfold byte, uint8.
    rewrite Z.mod_small by lia. done.
Qed.

Lemma writes_Varuint u : 0 <= u ->
  writes (u' <- varuint_for u ;; WriteByte (byte u')) tt (leb128 u).
Proof.
  intros Hu. destruct (writes_varuint_for u Hu) as (u' & pre & Hw & ->).
  eapply writes_bind; [apply Hw | apply writes_WriteByte].
Qed.

Lemma writes_Varuint32 u : 0 <= u -> writes (Varuint32 u) tt (leb128 u).
Proof. apply writes_Varuint. Qed.

Lemma writes_Varuint64 u : 0 <= u -> writes (Varuint64 u) tt (leb128 u).
Proof. apply writes_Varuint. Qed.
(** *** Every varint writer only appends *)

Lemma writes_eq {A} (m : W A) a bs bs' : writes m a bs -> bs = bs' -> writes m a bs'.
Proof. by intros H <-. Qed.

Lemma varuint_for_writes u : exists u' pre, writes (varuint_for u) u' pre.
Proof.
  funelim (varuint_for u).
  - destruct (H tt (State [] ∅)) as (u' & pre & Hw).
    exists u', ([Z.lor (byte u) 128] ++ pre).
    apply (writes_bind _ _ tt); [apply writes_WriteByte | apply Hw].
  - exists u, []. apply writes_ret.
Qed.

Lemma Varuint_writes u :
  exists bs, writes (u' <- varuint_for u ;; WriteByte (byte u')) tt bs.
Proof.
  destruct (varuint_for_writes u) as (u' & pre & Hw).
  exists (pre ++ [byte u']).
  eapply writes_bind; [apply Hw | apply writes_WriteByte].
Qed.

Lemma Varuint32_writes u : writes (Varuint32 u) tt (emitted (Varuint32 u)).
Proof.
  destruct (Varuint_writes u) as [bs H].
  by rewrite (writes_emitted (Varuint32 u) tt bs).
Qed.

Lemma Varint32_writes x : writes (Varint32 x) tt (emitted (Varint32 x)).
Proof.
  unfold Varint32 at 1. cbv zeta.
  match goal with |- writes (bind (varuint_for ?u) _) _ _ =>
    destruct (Varuint_writes u) as [bs H] end.
  by rewrite (writes_emitted (Varint32 x) tt bs).
Qed.

Lemma Varint64_writes x : writes (Varint64 x) tt (emitted (Varint64 x)).
Proof.
  unfold Varint64 at 1. cbv zeta.
  match goal with |- writes (bind (varuint_for ?u) _) _ _ =>
    destruct (Varuint_writes u) as [bs H] end.
  by rewrite (writes_emitted (Varint64 x) tt bs).
Qed.

(** *** Zig-zag *)

Lemma int32_range z : in_int32 (int32 z).
Proof.
  unfold in_int32, int32.
  pose proof (Z.mod_pos_bound (z + 2^31) (2^32) ltac:(lia)). lia.
Qed.

Lemma zigzag_nonneg x : 0 <= zigzag x.
Proof.
  unfold zigzag. rewrite Z.shiftl_mul_pow2 by lia.
  destruct (Z.ltb_spec x 0); [unfold Z.lnot|]; lia.
Qed.

Lemma zigzag_wrap (w : Z) (x : Z) :
  0 < w -> - 2 ^ (w - 1) <= x < 2 ^ (w - 1) ->
  (if x <? 0
   then (Z.lnot ((Z.shiftl (x mod 2 ^ w) 1) mod 2 ^ w)) mod 2 ^ w
   else (Z.shiftl (x mod 2 ^ w) 1) mod 2 ^ w) = zigzag x.
Proof.
  intros Hw Hx. unfold zigzag. rewrite !Z.shiftl_mul_pow2 by lia.
  assert (Hp : 2 ^ w = 2 * 2 ^ (w - 1)).
  { rewrite <- Z.pow_succ_r by lia. f_equal. lia. }
  assert (0 < 2 ^ (w - 1)) by (apply Z.pow_pos_nonneg; lia).
  destruct (Z.ltb_spec x 0).
  - assert (E1 : x mod 2 ^ w = x + 2 ^ w).
    { symmetry. apply (Z.mod_unique _ _ (-1)); lia. }
    rewrite E1.
    assert (E2 : ((x + 2 ^ w) * 2 ^ 1) mod 2 ^ w = 2 * x + 2 ^ w).
    { symmetry. apply (Z.mod_unique _ _ 1); lia. }
    rewrite E2. unfold Z.lnot.
    symmetry. apply (Z.mod_unique _ _ (-1)); lia.
  - rewrite (Z.mod_small x) by lia.
    apply Z.mod_small. lia.
Qed.

Lemma writes_Varint32 x : in_int32 x -> writes (Varint32 x) tt (leb128 (zigzag x)).
Proof.
  intros Hx. unfold Varint32, uint32. cbv zeta.
  rewrite (zigzag_wrap 32 x) by (unfold in_int32 in Hx; done).
  apply writes_Varuint, zigzag_nonneg.
Qed.

Lemma writes_Varint64 x : in_int64 x -> writes (Varint64 x) tt (leb128 (zigzag x)).
Proof.
  intros Hx. unfold Varint64, uint64. cbv zeta.
  rewrite (zigzag_wrap 64 x) by (unfold in_int64 in Hx; done).
  apply writes_Varuint, zigzag_nonneg.
Qed.

(** C4. Writer.Varint32 and Writer.Varint64 are zig-zag followed by LEB128:
    for every int32 [x] and int64 [y], what they append is the LEB128
    encoding (7 bits per byte, high bit for continuation) of the value
    shifted left by one bit and complemented when it was negative; -1 is
    written as the single byte 0x01 and 0 as the single byte 0x00, by
    both. *)
Theorem Varint_zigzag_leb128 (x y : Z) :
  in_int32 x -> in_int64 y ->
  writes (Varint32 x) tt (leb128 (zigzag x)) /\
  writes (Varint64 y) tt (leb128 (zigzag y)) /\
  writes (Varint32 (-1)) tt [1] /\ writes (Varint32 0) tt [0] /\
  writes (Varint64 (-1)) tt [1] /\ writes (Varint64 0) tt [0].
Proof.
  intros Hx Hy.
  split; [by apply writes_Varint32|].
  split; [by apply writes_Varint64|].
  split; [apply (writes_Varint32 (-1)); unfold in_int32; lia|].
  split; [apply (writes_Varint32 0); unfold in_int32; lia|].
  split; [apply (writes_Varint64 (-1)); unfold in_int64; lia|].
  apply (writes_Varint64 0); unfold in_int64; lia.
Qed.

(** C9. UBlockPos accepts a negative Y: it returns normally, having
    written X as a signed varint, then Y + 2^32 (the uint32 with the bits
    of Y) as an unsigned varint, then Z as a signed varint. *)
Theorem UBlockPos_negative_y (x y z : Z) :
  in_int32 x -> in_int32 y -> in_int32 z -> y < 0 ->
  writes (UBlockPos (protocol.mkBlockPos x y z)) tt
    (leb128 (zigzag x) ++ leb128 (y + 2^32) ++ leb128 (zigzag z)).
Proof.
  intros Hx Hy Hz Hneg. unfold UBlockPos.
  cbn [protocol.bp0 protocol.bp1 protocol.bp2]. cbv zeta.
  assert (E : uint32 y = y + 2^32).
  { unfold uint32, in_int32 in *. symmetry. apply (Z.mod_unique _ _ (-1)); lia. }
  rewrite E.
  apply (writes_bind _ _ tt); [by apply writes_Varint32|].
  apply (writes_bind _ _ tt); [|by apply writes_Varint32].
  apply writes_Varuint32. unfold in_int32 in Hy. lia.
Qed.

(** *** Item stacks *)

Lemma writes_String v : writes (String v) tt (emitted (String v)).
Proof.
  assert (H : writes (String v) tt
    (emitted (Varuint32 (uint32 (Z.of_nat (length (bytes_of_string v)))))
     ++ bytes_of_string v)).
  { unfold String. cbv zeta.
    apply (writes_bind _ _ tt); [apply Varuint32_writes | apply writes_Write]. }
  by rewrite (writes_emitted _ _ _ H).
Qed.

Lemma writes_range_String (l : list string) :
  writes (range l (fun block => String block)) tt
    (concat ((fun v => emitted (String v)) <$> l)).
Proof. apply writes_range. intros v _. apply writes_String. Qed.

Lemma writes_NBT (x : gmap string protocol.any) (encoding : nbt_Encoding) :
  snd (nbt_Encode encoding (protocol.ACompound x)) = None ->
  writes (NBT x encoding) tt (fst (nbt_Encode encoding (protocol.ACompound x))).
Proof.
  intros H s. unfold NBT, nbt_Encoder_Encode, bind, Write, ret.
  by rewrite H.
Qed.

Lemma NBT_panics (x : gmap string protocol.any) (encoding : nbt_Encoding) e s :
  snd (nbt_Encode encoding (protocol.ACompound x)) = Some e ->
  NBT x encoding s =
    (Panic (GoError e),
     State (out s ++ fst (nbt_Encode encoding (protocol.ACompound x))) (heap s)).
Proof.
  intros H. unfold NBT, nbt_Encoder_Encode, bind, Write, ret.
  by rewrite H.
Qed.

Lemma writes_marker (x : protocol.ItemStack) :
  nbt_ok x ->
  writes
    (if decide (size (protocol.NBTData x) <> 0%nat) then
       Int16 (int16 (-1)) ;; Uint8 (uint8 1) ;;
       NBT (protocol.NBTData x) nbt_NetworkLittleEndian
     else Int16 (int16 0))
    tt (marker_wire x).
Proof.
  intros Hok. unfold marker_wire.
  destruct (decide (size (protocol.NBTData x) <> 0%nat)) as [Hne|He].
  - destruct Hok as [H0|Hnone]; [done|].
    apply (writes_bind _ _ tt); [apply writes_Write|].
    apply (writes_bind _ _ tt); [apply writes_WriteByte|].
    by apply writes_NBT.
  - apply writes_Write.
Qed.

Lemma writes_signed_length (n : Z) : writes (Varint32 (int32 n)) tt (signed_length n).
Proof. apply writes_Varint32, int32_range. Qed.

(** What [Item] writes after the identifier of a non-empty stack. *)
Lemma Item_writes (x : protocol.ItemStack) :
  protocol.NetworkID x <> 0 -> nbt_ok x ->
  writes (Item x) tt
    (item_wire signed_length x ++
     (if decide (protocol.NetworkID x = shieldID) then emitted (Varint64 0) else [])).
Proof.
  intros Hid Hok. unfold Item. cbv zeta.
  destruct (decide (protocol.NetworkID x = 0)) as [|_]; [done|].
  destruct (decide (protocol.NetworkID x = shieldID)).
  all: eapply writes_eq;
    [ apply (writes_bind _ _ tt); [apply Varint32_writes|];
      apply (writes_bind _ _ tt); [apply Varint32_writes|];
      apply (writes_bind _ _ tt); [by apply writes_marker|];
      apply (writes_bind _ _ tt); [apply writes_signed_length|];
      apply (writes_bind _ _ tt); [apply writes_range_String|];
      apply (writes_bind _ _ tt); [apply writes_signed_length|];
      apply (writes_bind _ _ tt); [apply writes_range_String|];
      first [apply Varint64_writes | apply writes_ret]
    | unfold item_wire, item_head_wire, sequence_wire, item_aux;
      by rewrite <- ?app_assoc ].
Qed.

(** When the tree encoder returns an error for the nested record, [Item]
    panics with it; identifier, aux word, marker, version and what the
    encoder wrote before it gave up are in the sink. *)
Lemma Item_nbt_error (x : protocol.ItemStack) (e : string) (s : state) :
  protocol.NetworkID x <> 0 ->
  size (protocol.NBTData x) <> 0%nat ->
  snd (nbt_Encode nbt_NetworkLittleEndian (protocol.ACompound (protocol.NBTData x)))
    = Some e ->
  Item x s =
    (Panic (GoError e),
     State (out s ++ item_head_wire x ++ marker_wire x) (heap s)).
Proof.
  intros Hid Hsz He. unfold Item. cbv zeta.
  destruct (decide (protocol.NetworkID x = 0)); [done|].
  rewrite (bind_writes _ _ _ _ _ (Varint32_writes _)).
  rewrite (bind_writes _ _ _ _ _ (Varint32_writes _)).
  apply bind_Panic.
  unfold marker_wire.
  destruct (decide (size (protocol.NBTData x) <> 0%nat)); [|done].
  unfold Int16, Uint8.
  rewrite (bind_writes _ _ _ _ _ (writes_Write _)).
  rewrite (bind_writes _ _ _ _ _ (writes_WriteByte _)).
  rewrite (NBT_panics _ _ e _ He). cbn [out heap].
  unfold item_head_wire, item_aux. by rewrite <- !app_assoc.
Qed.

Lemma emitted_Varint64_0 : emitted (Varint64 0) = [0].
Proof. reflexivity. Qed.

(** C2. An item stack with NetworkID 0 is written as the single byte 0x00,
    the signed varint of 0: [Item] returns after it, and the sink holds
    nothing more. *)
Theorem Item_empty_slot (x : protocol.ItemStack) :
  protocol.NetworkID x = 0 -> writes (Item x) tt [0].
Proof.
  intros Hid. unfold Item. rewrite Hid.
  destruct (decide (0 = 0)) as [_|]; [|done].
  eapply writes_eq.
  - apply (writes_bind _ _ tt); [apply Varint32_writes | apply writes_ret].
  - reflexivity.
Qed.

(** C3. For a shield (NetworkID 513) whose nested record the tree encoder
    accepts, [Item] writes the fields up to the CanBreak sequence and then
    one signed varint64, the blocking tick, which takes one byte although
    it is zero; for every other non-zero NetworkID it writes the fields
    only. *)
Theorem Item_shield_trailing_tick (x : protocol.ItemStack) :
  protocol.NetworkID x <> 0 -> nbt_ok x ->
  (protocol.NetworkID x = shieldID ->
     writes (Item x) tt (item_wire signed_length x ++ emitted (Varint64 0))) /\
  (protocol.NetworkID x <> shieldID ->
     writes (Item x) tt (item_wire signed_length x)) /\
  length (emitted (Varint64 0)) = 1%nat.
Proof.
  intros Hid Hok. pose proof (Item_writes x Hid Hok) as H.
  destruct (decide (protocol.NetworkID x = shieldID)) as [E|E].
  - split; [done|]. split; [done|]. by rewrite emitted_Varint64_0.
  - rewrite app_nil_r in H. split; [done|]. split; [done|].
    by rewrite emitted_Varint64_0.
Qed.

(** C8. The blocking tick that [Item] writes for a shield is zero whatever
    the stack holds: what follows the CanBreak sequence is the byte 0x00,
    the signed varint64 of 0. *)
Theorem Item_shield_tick_zero (x : protocol.ItemStack) (s : state) :
  protocol.NetworkID x = shieldID -> nbt_ok x ->
  fst (Item x s) = Ret tt /\
  drop (length (out s ++ item_wire signed_length x)) (out (snd (Item x s)))
    = emitted (Varint64 0) /\
  emitted (Varint64 0) = [0] /\
  last (out (snd (Item x s))) = Some 0.
Proof.
  intros Hid Hok.
  assert (Hne : protocol.NetworkID x <> 0) by (rewrite Hid; done).
  pose proof (Item_writes x Hne Hok s) as H.
  destruct (decide (protocol.NetworkID x = shieldID)); [|done].
  rewrite H. cbn [fst snd out]. split; [done|].
  rewrite app_assoc, drop_app_length. split; [done|].
  split; [apply emitted_Varint64_0|].
  rewrite emitted_Varint64_0. apply last_snoc.
Qed.

(** C5. After the aux word of a non-empty item stack comes the marker of
    the nested record. With a record that the tree encoder accepts in its
    network little-endian variant: the 16-bit value -1, the version byte 1
    and the encoded record. Without one: the 16-bit value 0 and nothing
    else. The two sequences and, for a shield, the tick follow. *)
Theorem Item_nested_record_marker (x : protocol.ItemStack) (bs : list Z) :
  protocol.NetworkID x <> 0 ->
  let rest :=
    sequence_wire signed_length (protocol.CanBePlacedOn x) ++
    sequence_wire signed_length (protocol.CanBreak x) ++
    (if decide (protocol.NetworkID x = shieldID) then emitted (Varint64 0) else []) in
  (size (protocol.NBTData x) <> 0%nat ->
   nbt_Encode nbt_NetworkLittleEndian (protocol.ACompound (protocol.NBTData x))
     = (bs, None) ->
   writes (Item x) tt
     (item_head_wire x ++ (Int16_bytes (-1) ++ [1] ++ bs) ++ rest)) /\
  (size (protocol.NBTData x) = 0%nat ->
   writes (Item x) tt (item_head_wire x ++ Int16_bytes 0 ++ rest)).
Proof.
  intros Hid rest. subst rest. split.
  - intros Hsz Henc.
    assert (Hok : nbt_ok x) by (right; by rewrite Henc).
    eapply writes_eq; [apply (Item_writes x Hid Hok)|].
    unfold item_wire, marker_wire.
    destruct (decide (size (protocol.NBTData x) <> 0%nat)); [|done].
    rewrite Henc. cbn [fst]. by rewrite <- !app_assoc.
  - intros Hsz.
    assert (Hok : nbt_ok x) by (by left).
    eapply writes_eq; [apply (Item_writes x Hid Hok)|].
    unfold item_wire, marker_wire.
    destruct (decide (size (protocol.NBTData x) <> 0%nat)); [done|].
    by rewrite <- !app_assoc.
Qed.

(** C1 (amended). For every item stack with NetworkID other than 0 whose
    nested record the tree encoder accepts, [Item] writes the CanBePlacedOn
    sequence and then the CanBreak sequence each behind its element count,
    and the count is written as a signed varint: the LEB128 bytes of the
    zig-zag of the count as an int32. *)
Theorem Item_sequences_signed_length (x : protocol.ItemStack) :
  protocol.NetworkID x <> 0 -> nbt_ok x ->
  writes (Item x) tt
    (item_head_wire x ++ marker_wire x ++
     (leb128 (zigzag (int32 (Z.of_nat (length (protocol.CanBePlacedOn x))))) ++
      concat ((fun v => emitted (String v)) <$> protocol.CanBePlacedOn x)) ++
     (leb128 (zigzag (int32 (Z.of_nat (length (protocol.CanBreak x))))) ++
      concat ((fun v => emitted (String v)) <$> protocol.CanBreak x)) ++
     (if decide (protocol.NetworkID x = shieldID) then emitted (Varint64 0) else [])).
Proof.
  intros Hid Hok.
  eapply writes_eq; [apply (Item_writes x Hid Hok)|].
  unfold item_wire, sequence_wire, signed_length. by rewrite <- !app_assoc.
Qed.

(** *** Entity metadata *)

Lemma range_app {A} (l1 l2 : list A) (body : A -> W unit) (s : state) :
  range (l1 ++ l2) body s = (range l1 body ;; range l2 body) s.
Proof.
  revert s. induction l1 as [|v l1 IH]; intros s; [done|].
  cbn [app range]. unfold bind in *.
  destruct (body v s) as [[[]|e] s1]; [|done].
  apply IH.
Qed.

Lemma range_panics {A} (l : list A) (body : A -> W unit) (v : A) :
  v ∈ l ->
  (forall s, exists e s', body v s = (Panic e, s')) ->
  forall s, exists e s', range l body s = (Panic e, s').
Proof.
  intros Hin Hv. induction l as [|w l IH]; intros s.
  - by apply elem_of_nil in Hin.
  - cbn [range]. unfold bind.
    destruct (body w s) as [[[]|e] s1] eqn:Hw; [|by eauto].
    apply elem_of_cons in Hin as [->|Hin].
    + destruct (Hv s) as (e & s' & He). congruence.
    + by apply IH.
Qed.

(** The body of the loop of [EntityMetadata] at a value of unknown type:
    the key is written, then the panic. *)
Lemma unknown_entry_panics (key : Z) (t enum : string) (s : state) :
  (Varuint32 key ;; UnknownEnumOption t enum) s =
    (Panic (Errorf_unknown_enum t enum),
     State (out s ++ emitted (Varuint32 key)) (heap s)).
Proof. by rewrite (bind_writes _ _ _ _ _ (Varuint32_writes _)). Qed.

(** C7. When some value of the map has a dynamic type outside the nine
    known ones, [EntityMetadata] panics, in whatever order the map is
    visited. When the entries visited before that value were written
    without a panic, the panic is the unknown-enum-option error for the
    type of the value, raised right after its key was written: no type
    constant, no payload and no later entry follow. *)
Theorem EntityMetadata_unknown_type_panics
    (x : gmap Z protocol.any) (order : list (Z * protocol.any))
    (k : Z) (t : string) (s : state) :
  order ≡ₚ map_to_list x ->
  x !! k = Some (protocol.AOther t) ->
  (exists e s', EntityMetadata x order s = (Panic e, s')) /\
  (forall pre rest s2,
     order = pre ++ (k, protocol.AOther t) :: rest ->
     EntityMetadata x pre s = (Ret tt, s2) ->
     EntityMetadata x order s =
       (Panic (Errorf_unknown_enum t "entity metadata"),
        State (out s2 ++ emitted (Varuint32 k)) (heap s2))).
Proof.
  intros Hperm Hk.
  assert (Hin : (k, protocol.AOther t) ∈ order).
  { rewrite Hperm. by apply elem_of_map_to_list. }
  split.
  - unfold EntityMetadata. cbv zeta.
    rewrite (bind_writes _ _ _ _ _ (Varuint32_writes _)).
    apply (range_panics order _ _ Hin). intros s1.
    eexists _, _. apply unknown_entry_panics.
  - intros pre rest s2 ->.
    unfold EntityMetadata. cbv zeta.
    rewrite !(bind_writes _ _ _ _ _ (Varuint32_writes _)).
    intros Hpre. rewrite range_app.
    rewrite (bind_Ret _ _ _ _ _ Hpre). cbn [range].
    apply bind_Panic, unknown_entry_panics.
Qed.

(** *** UUID *)

Lemma reverse_for_lt (b : slice) (i j : Z) :
  i < j -> reverse_for b i j = (swap b i j ;; reverse_for b (i + 1) (j - 1)).
Proof.
  intros H. rewrite reverse_for_equation_1.
  destruct (Z_lt_dec i j); [done | lia].
Qed.

Lemma reverse_for_ge (b : slice) (i j : Z) :
  ~ i < j -> reverse_for b i j = ret tt.
Proof.
  intros H. rewrite reverse_for_equation_1.
  destruct (Z_lt_dec i j); [lia | done].
Qed.

Lemma load_run (b : slice) (a : list Z) (s : state) :
  heap s !! arr b = Some a -> (off b + len b <= length a)%nat ->
  load b s = (Ret (take (len b) (drop (off b) a)), s).
Proof.
  intros Ha Hle. unfold load. rewrite Ha.
  destruct (decide (off b + len b <= length a)%nat); [done | lia].
Qed.

Lemma index_run (l : loc) (n c : nat) (i : Z) (a : list Z) (v : Z) (s : state) :
  heap s !! l = Some a -> 0 <= i < Z.of_nat n -> a !! Z.to_nat i = Some v ->
  index (Slice l 0 n c) i s = (Ret v, s).
Proof.
  intros Ha Hi Hv. unfold index. cbn [arr off len]. rewrite Ha.
  destruct (decide (0 <= i < Z.of_nat n)); [|lia].
  cbn [Nat.add]. by rewrite Hv.
Qed.

Lemma set_index_run (l : loc) (n c : nat) (i v : Z) (a : list Z) o h :
  0 <= i < Z.of_nat n -> (Z.to_nat i < length a)%nat ->
  set_index (Slice l 0 n c) i v (State o (<[l := a]> h)) =
    (Ret tt, State o (<[l := <[Z.to_nat i := v]> a]> h)).
Proof.
  intros Hi Hlen. unfold set_index. cbn [arr off len heap out Nat.add].
  rewrite lookup_insert_eq.
  destruct (decide (0 <= i < Z.of_nat n /\ (Z.to_nat i < length a)%nat)); [|lia].
  by rewrite insert_insert_eq.
Qed.

(** One exchange [b[i], b[j] = b[j], b[i]] on a slice that starts its
    array. *)
Lemma swap_run (l : loc) (n c : nat) (i j vi vj : Z) (a : list Z) o h :
  0 <= i < Z.of_nat n -> 0 <= j < Z.of_nat n ->
  a !! Z.to_nat i = Some vi -> a !! Z.to_nat j = Some vj ->
  swap (Slice l 0 n c) i j (State o (<[l := a]> h)) =
    (Ret tt, State o (<[l := <[Z.to_nat j := vi]> (<[Z.to_nat i := vj]> a)]> h)).
Proof.
  intros Hi Hj Hvi Hvj. unfold swap.
  assert (Hl : heap (State o (<[l := a]> h)) !! l = Some a)
    by (cbn; apply lookup_insert_eq).
  rewrite (bind_Ret _ _ vj _ _ (index_run l n c j a vj _ Hl Hj Hvj)).
  rewrite (bind_Ret _ _ vi _ _ (index_run l n c i a vi _ Hl Hi Hvi)).
  apply lookup_lt_Some in Hvi, Hvj.
  rewrite (bind_Ret _ _ tt _ _ (set_index_run l n c i vj a o h Hi Hvi)).
  apply set_index_run; [done|]. by rewrite length_insert.
Qed.

(** [append] when the capacity is too small: a new array. *)
Lemma append_alloc (g : nat -> nat -> nat) (b t : slice) (old vs : list Z) (s : state) :
  load t s = (Ret vs, s) -> load b s = (Ret old, s) ->
  (cap b < len b + length vs)%nat ->
  let need := (len b + length vs)%nat in
  let newcap := Nat.max need (g (cap b) need) in
  append g b t s =
    (Ret (Slice (fresh (dom (heap s))) 0 need newcap),
     State (out s)
       (<[fresh (dom (heap s)) := old ++ vs ++ replicate (newcap - need) 0]> (heap s))).
Proof.
  intros Ht Hb Hcap need newcap. unfold append.
  rewrite (bind_Ret _ _ vs _ _ Ht). cbv zeta.
  destruct (decide (len b + length vs <= cap b)%nat); [lia|].
  by rewrite (bind_Ret _ _ old _ _ Hb).
Qed.

(** The loop of [UUID] on an array that starts with 16 bytes. *)
Lemma reverse_for_16 (l : loc) (c : nat) (a tl : list Z) o h :
  length a = 16%nat ->
  reverse_for (Slice l 0 16 c) 0 15 (State o (<[l := a ++ tl]> h)) =
    (Ret tt, State o (<[l := rev a ++ tl]> h)).
Proof.
  intros Hlen.
  do 16 (destruct a as [|? a]; [discriminate|]).
  destruct a; [|discriminate]. clear Hlen.
  cbn [app rev].
  do 8 (rewrite reverse_for_lt by lia;
        erewrite (bind_Ret _ _ tt);
        [| apply swap_run; [lia | lia | reflexivity | reflexivity] ]).
  by rewrite reverse_for_ge by lia.
Qed.

(** What [UUID] does from a state whose heap holds the 16 bytes [u] at
    [x]: it writes the bytes of the reversed half-swap of [u], and the only
    change to the heap is the new array of the copy. *)
Lemma UUID_run (x : loc) (u : list Z) (s : state) :
  heap s !! x = Some u -> length u = 16%nat ->
  let wire := rev (drop 8 u ++ take 8 u) in
  UUID x s =
    (Ret tt,
     State (out s ++ wire)
       (<[fresh (dom (heap s)) :=
            wire ++ replicate (Nat.max 16 (growcap 8 16) - 16) 0]> (heap s))).
Proof.
  intros Hx Hlen wire. subst wire.
  do 16 (destruct u as [|? u]; [discriminate|]).
  destruct u; [|discriminate]. clear Hlen.
  unfold UUID.
  erewrite (bind_Ret _ _ _ s); cycle 1.
  { apply (append_alloc growcap _ _
             (take 8 (drop 8 [z; z0; z1; z2; z3; z4; z5; z6; z7; z8; z9; z10; z11; z12; z13; z14]))
             (take 8 (drop 0 [z; z0; z1; z2; z3; z4; z5; z6; z7; z8; z9; z10; z11; z12; z13; z14]))).
    - apply (load_run (slice_array x 16 0 8) _ s Hx). cbn. lia.
    - apply (load_run (slice_array x 16 8 16) _ s Hx). cbn. lia.
    - cbn. lia. }
  cbn [slice_array len cap length take drop Nat.sub Nat.add].
  set (k := (Nat.max 16 (growcap 8 16) - 16)%nat).
  destruct s as [o h]. cbn [out heap].
  rewrite app_assoc.
  erewrite (bind_Ret _ _ tt); [|by apply reverse_for_16].
  erewrite (bind_Ret _ _ _); cycle 1.
  { apply load_run; [apply lookup_insert_eq|]. cbn. lia. }
  reflexivity.
Qed.

(** C6. For every 16-byte identifier [u] at [x], [UUID] returns after
    writing exactly 16 bytes: the two 8-byte halves of [u] swapped and the
    whole then reversed, so that byte [i] written is byte [7-i] of [u] for
    [i] in 0..7 and byte [23-i] of [u] for [i] in 8..15. *)
Theorem UUID_wire_order (x : loc) (u : list Z) (s : state) :
  heap s !! x = Some u -> length u = 16%nat ->
  exists wire,
    fst (UUID x s) = Ret tt /\
    out (snd (UUID x s)) = out s ++ wire /\
    length wire = 16%nat /\
    wire = rev (drop 8 u ++ take 8 u) /\
    forall i, (i < 16)%nat ->
      wire !! i = u !! (if (i <? 8)%nat then 7 - i else 23 - i)%nat.
Proof.
  intros Hx Hlen. exists (rev (drop 8 u ++ take 8 u)).
  rewrite (UUID_run x u s Hx Hlen). cbn [fst snd out].
  split; [done|]. split; [done|].
  do 16 (destruct u as [|? u]; [discriminate|]).
  destruct u; [|discriminate].
  split; [done|]. split; [done|].
  intros i Hi.
  do 16 (destruct i as [|i]; [reflexivity|]). lia.
Qed.

(** C10. [UUID] leaves the identifier alone: the half-swap and the
    reversal work on an array of their own, at a location that was not in
    use, and after the call the 16 bytes at [x], like every other array of
    the heap, are what they were before it. *)
Theorem UUID_leaves_input (x : loc) (u : list Z) (s : state) :
  heap s !! x = Some u -> length u = 16%nat ->
  fst (UUID x s) = Ret tt /\
  heap (snd (UUID x s)) !! x = Some u /\
  (forall l a, heap s !! l = Some a -> heap (snd (UUID x s)) !! l = Some a) /\
  exists l copy, heap s !! l = None /\ heap (snd (UUID x s)) = <[l := copy]> (heap s).
Proof.
  intros Hx Hlen. rewrite (UUID_run x u s Hx Hlen). cbn [fst snd heap].
  assert (Hfresh : forall l a, heap s !! l = Some a -> fresh (dom (heap s)) <> l).
  { intros l a Hl <-. apply (is_fresh (dom (heap s))). by apply elem_of_dom_2 in Hl. }
  split; [done|].
  split; [rewrite lookup_insert_ne; eauto|].
  split; [intros l a Hl; rewrite lookup_insert_ne; eauto|].
  eexists _, _. split; [|done].
  apply not_elem_of_dom, is_fresh.
Qed.

(** ** More about the varints *)

Lemma length_leb128 u : length (leb128 u) = leb128_len u.
Proof. unfold leb128. by rewrite length_fmap, length_seq. Qed.

Lemma leb128_len_bound (u : Z) (n : Z) :
  0 <= u < 2 ^ (7 * n) -> 0 < n -> (leb128_len u <= Z.to_nat n)%nat.
Proof.
  intros Hu Hn. unfold leb128_len.
  destruct (Z.eq_dec u 0) as [->|Hne].
  - change (Z.log2 0) with 0. rewrite Z.div_0_l by lia. lia.
  - assert (Z.log2 u < 7 * n) by (apply Z.log2_lt_pow2; lia).
    pose proof (Z.log2_nonneg u).
    assert (Z.log2 u / 7 < n) by (apply Z.div_lt_upper_bound; lia).
    assert (0 <= Z.log2 u / 7) by (apply Z.div_pos; lia).
    lia.
Qed.

Lemma leb128_len_one u : 0 <= u -> leb128_len u = 1%nat <-> u < 128.
Proof.
  intros Hu. split.
  - intros H. destruct (Z_lt_dec u 128) as [|Hge]; [done|].
    rewrite leb128_len_step in H by lia. unfold leb128_len in H. lia.
  - apply leb128_len_small.
Qed.

Lemma emitted_Varuint32 u : 0 <= u -> emitted (Varuint32 u) = leb128 u.
Proof. intros Hu. by apply (writes_emitted _ tt), writes_Varuint32. Qed.

Lemma emitted_Varuint64 u : 0 <= u -> emitted (Varuint64 u) = leb128 u.
Proof. intros Hu. by apply (writes_emitted _ tt), writes_Varuint64. Qed.

Lemma emitted_Varint32 x : in_int32 x -> emitted (Varint32 x) = leb128 (zigzag x).
Proof. intros Hx. by apply (writes_emitted _ tt), writes_Varint32. Qed.

Lemma emitted_Varint64 x : in_int64 x -> emitted (Varint64 x) = leb128 (zigzag x).
Proof. intros Hx. by apply (writes_emitted _ tt), writes_Varint64. Qed.

Lemma zigzag_cases x : zigzag x = if x <? 0 then - 2 * x - 1 else 2 * x.
Proof.
  unfold zigzag. rewrite Z.shiftl_mul_pow2 by lia.
  destruct (x <? 0); [unfold Z.lnot|]; lia.
Qed.

Lemma zigzag_inj x y : zigzag x = zigzag y -> x = y.
Proof.
  rewrite !zigzag_cases.
  destruct (Z.ltb_spec x 0), (Z.ltb_spec y 0); lia.
Qed.

Lemma zigzag_range32 x : in_int32 x -> 0 <= zigzag x < 2^32.
Proof.
  unfold in_int32. rewrite zigzag_cases. destruct (Z.ltb_spec x 0); lia.
Qed.

Lemma zigzag_range64 x : in_int64 x -> 0 <= zigzag x < 2^64.
Proof.
  unfold in_int64. rewrite zigzag_cases. destruct (Z.ltb_spec x 0); lia.
Qed.

(** The bytes of an unsigned varint can be read back, whatever follows
    them. *)
Lemma uvarint_leb128 (u : Z) (rest : list Z) :
  0 <= u -> uvarint (leb128 u ++ rest) = Some (u, rest).
Proof.
  intros Hu. revert rest. pattern u. apply Zlt_0_ind; [|done].
  clear u Hu. intros u IH Hu rest.
  destruct (Z_lt_dec u 128) as [Hlt|Hge].
  - rewrite leb128_small by lia. cbn.
    destruct (Z.ltb_spec u 128); [done | lia].
  - rewrite leb128_step by lia. cbn [app uvarint].
    assert (Hm : 0 <= Z.land u 127 < 128).
    { change 127 with (Z.ones 7). rewrite Z.land_ones by lia.
      apply Z.mod_pos_bound. lia. }
    destruct (Z.ltb_spec (Z.land u 127 + 128) 128); [lia|].
    assert (Hs : 0 <= Z.shiftr u 7 < u).
    { rewrite Z.shiftr_div_pow2 by lia. split; [apply Z.div_pos; lia|].
      apply Z.div_lt; lia. }
    rewrite (IH _ Hs). do 2 f_equal.
    assert (E : Z.land (Z.land u 127 + 128) 127 = Z.land u 127).
    { change 127 with (Z.ones 7) at 2. rewrite Z.land_ones by lia.
      change 128 with (1 * 2 ^ 7) at 1. rewrite Z.mod_add by lia.
      apply Z.mod_small. change (2 ^ 7) with 128. lia. }
    rewrite E. change 127 with (Z.ones 7). rewrite Z.land_ones by lia.
    rewrite Z.shiftr_div_pow2 by lia. change (2 ^ 7) with 128.
    pose proof (Z.div_mod u 128 ltac:(lia)). lia.
Qed.

Lemma leb128_self_delimiting (u v : Z) (r r' : list Z) :
  0 <= u -> 0 <= v -> leb128 u ++ r = leb128 v ++ r' -> u = v /\ r = r'.
Proof.
  intros Hu Hv H. apply (f_equal uvarint) in H.
  rewrite !uvarint_leb128 in H by done. by inversion H.
Qed.

(** X1. Varuint32 writes a uint32 as 1 to 5 bytes and Varuint64 writes a
    uint64 as 1 to 10 bytes. *)
Theorem Varuint_byte_count (u v : Z) :
  0 <= u < 2^32 -> 0 <= v < 2^64 ->
  (1 <= length (emitted (Varuint32 u)) <= 5)%nat /\
  (1 <= length (emitted (Varuint64 v)) <= 10)%nat.
Proof.
  intros Hu Hv.
  rewrite (emitted_Varuint32 u), (emitted_Varuint64 v), !length_leb128 by lia.
  pose proof (leb128_len_bound u 5 ltac:(change (2 ^ (7 * 5)) with (2^35); lia) ltac:(lia)).
  pose proof (leb128_len_bound v 10 ltac:(change (2 ^ (7 * 10)) with (2^70); lia) ltac:(lia)).
  unfold leb128_len in *. lia.
Qed.

(** X2. Varint32 writes an int32 as 1 to 5 bytes and Varint64 writes an
    int64 as 1 to 10 bytes; an int32 takes a single byte exactly when it
    lies in -64..63. *)
Theorem Varint_byte_count (x y : Z) :
  in_int32 x -> in_int64 y ->
  (1 <= length (emitted (Varint32 x)) <= 5)%nat /\
  (1 <= length (emitted (Varint64 y)) <= 10)%nat /\
  (length (emitted (Varint32 x)) = 1%nat <-> -64 <= x < 64).
Proof.
  intros Hx Hy.
  rewrite emitted_Varint32, emitted_Varint64, !length_leb128 by done.
  pose proof (zigzag_range32 x Hx) as Rx. pose proof (zigzag_range64 y Hy) as Ry.
  pose proof (leb128_len_bound (zigzag x) 5
    ltac:(change (2 ^ (7 * 5)) with (2^35); lia) ltac:(lia)).
  pose proof (leb128_len_bound (zigzag y) 10
    ltac:(change (2 ^ (7 * 10)) with (2^70); lia) ltac:(lia)).
  split; [unfold leb128_len in *; lia|].
  split; [unfold leb128_len in *; lia|].
  rewrite leb128_len_one by lia. rewrite zigzag_cases.
  destruct (Z.ltb_spec x 0); lia.
Qed.

(** X3. An unsigned varint delimits itself: when the bytes of two values,
    each followed by arbitrary bytes, are the same sequence, the values are
    equal and so is what follows. No value is written as a prefix of
    another. *)
Theorem Varuint_self_delimiting (u v : Z) (r r' : list Z) :
  0 <= u -> 0 <= v ->
  (emitted (Varuint32 u) ++ r = emitted (Varuint32 v) ++ r' -> u = v /\ r = r') /\
  (emitted (Varuint64 u) ++ r = emitted (Varuint64 v) ++ r' -> u = v /\ r = r').
Proof.
  intros Hu Hv.
  split.
  - rewrite !emitted_Varuint32 by done. by apply leb128_self_delimiting.
  - rewrite !emitted_Varuint64 by done. by apply leb128_self_delimiting.
Qed.

(** X4. A signed varint delimits itself in the same way, for int32 values
    written by Varint32 and int64 values written by Varint64. *)
Theorem Varint_self_delimiting (x y x' y' : Z) (r r' : list Z) :
  in_int32 x -> in_int32 x' -> in_int64 y -> in_int64 y' ->
  (emitted (Varint32 x) ++ r = emitted (Varint32 x') ++ r' -> x = x' /\ r = r') /\
  (emitted (Varint64 y) ++ r = emitted (Varint64 y') ++ r' -> y = y' /\ r = r').
Proof.
  intros Hx Hx' Hy Hy'.
  rewrite !emitted_Varint32, !emitted_Varint64 by done.
  split; intros H;
    apply leb128_self_delimiting in H as [Hz ->]; try apply zigzag_nonneg;
    by apply zigzag_inj in Hz.
Qed.

(** X5. On the values of an int32, Varint32 and Varint64 write the same
    bytes. *)
Theorem Varint32_Varint64_agree (x : Z) :
  in_int32 x -> emitted (Varint32 x) = emitted (Varint64 x).
Proof.
  intros Hx. rewrite emitted_Varint32 by done.
  rewrite emitted_Varint64; [done|].
  unfold in_int32, in_int64 in *. lia.
Qed.

(** ** Strings, colours and positions *)

Lemma length_bytes_of_string (a : string) :
  length (bytes_of_string a) = String.length a.
Proof.
  unfold bytes_of_string. rewrite length_fmap.
  induction a as [|c a IH]; [done|]. cbn. by rewrite IH.
Qed.

Lemma bytes_of_string_inj (a b : string) :
  bytes_of_string a = bytes_of_string b -> a = b.
Proof.
  unfold bytes_of_string. intros H.
  rewrite <- (String.string_of_list_ascii_of_string a),
          <- (String.string_of_list_ascii_of_string b).
  f_equal. revert H.
  generalize (String.list_ascii_of_string a) (String.list_ascii_of_string b).
  intros l. induction l as [|c l IH]; intros [|c' l'] H; try discriminate; [done|].
  cbn in H. injection H as Hc Hl. f_equal; [|by apply IH].
  apply N2Z.inj in Hc.
  rewrite <- (Ascii.ascii_N_embedding c), <- (Ascii.ascii_N_embedding c').
  by rewrite Hc.
Qed.

Lemma bytes_of_string_range (a : string) (c : Z) :
  c ∈ bytes_of_string a -> 0 <= c < 256.
Proof.
  unfold bytes_of_string. intros (x & -> & _)%list_elem_of_fmap.
  pose proof (Ascii.N_ascii_bounded x). lia.
Qed.

Lemma emitted_String (a : string) :
  Z.of_nat (String.length a) < 2^32 ->
  emitted (String a) = leb128 (Z.of_nat (String.length a)) ++ bytes_of_string a.
Proof.
  intros Hlen. apply (writes_emitted _ tt).
  unfold String. cbv zeta. rewrite length_bytes_of_string.
  unfold uint32. rewrite Z.mod_small by lia.
  apply (writes_bind _ _ tt); [apply writes_Varuint32; lia | apply writes_Write].
Qed.

(** X6. A string of fewer than 2^32 bytes is written as the unsigned
    varint of its length in bytes followed by its bytes, each in 0..255;
    ByteSlice writes the byte slice of the string in the same way. The
    empty string is the single byte 0x00. *)
Theorem String_layout (a : string) :
  Z.of_nat (String.length a) < 2^32 ->
  writes (String a) tt (leb128 (Z.of_nat (String.length a)) ++ bytes_of_string a) /\
  writes (ByteSlice (bytes_of_string a)) tt
    (leb128 (Z.of_nat (String.length a)) ++ bytes_of_string a) /\
  (forall c, c ∈ bytes_of_string a -> 0 <= c < 256) /\
  (a = EmptyString -> emitted (String a) = [0]).
Proof.
  intros Hlen.
  assert (H : writes (String a) tt
                (leb128 (Z.of_nat (String.length a)) ++ bytes_of_string a)).
  { rewrite <- emitted_String by done. apply writes_String. }
  split; [exact H|]. split; [exact H|].
  split; [apply bytes_of_string_range|].
  by intros ->.
Qed.

(** X7. A string delimits itself: when the bytes written for two strings
    (of fewer than 2^32 bytes), each followed by arbitrary bytes, are the
    same sequence, the strings are equal and so is what follows. *)
Theorem String_self_delimiting (a b : string) (r r' : list Z) :
  Z.of_nat (String.length a) < 2^32 -> Z.of_nat (String.length b) < 2^32 ->
  emitted (String a) ++ r = emitted (String b) ++ r' ->
  a = b /\ r = r'.
Proof.
  intros Ha Hb. rewrite !emitted_String by done.
  rewrite <- !app_assoc. intros H.
  apply leb128_self_delimiting in H as [Hn H]; [|lia..].
  apply Nat2Z.inj in Hn.
  apply app_inj_1 in H as [H ->]; [|by rewrite !length_bytes_of_string].
  by apply bytes_of_string_inj in H.
Qed.

Lemma land_low_shiftl (a b n : Z) :
  0 <= a < 2 ^ n -> 0 <= n -> Z.land a (Z.shiftl b n) = 0.
Proof.
  intros Ha Hn. apply Z.bits_inj'. intros i Hi.
  rewrite Z.land_spec, Z.bits_0.
  destruct (Z_lt_dec i n) as [Hlt|Hge].
  - by rewrite Z.shiftl_spec_low, andb_false_r.
  - destruct (Z.eq_dec a 0) as [->|Hne]; [by rewrite Z.bits_0|].
    rewrite Z.bits_above_log2; [done | lia |].
    assert (Z.log2 a < n) by (apply Z.log2_lt_pow2; lia). lia.
Qed.

Lemma lor_low_shiftl (a b n : Z) :
  0 <= a < 2 ^ n -> 0 <= n -> Z.lor a (Z.shiftl b n) = a + b * 2 ^ n.
Proof.
  intros Ha Hn. pose proof (land_low_shiftl a b n Ha Hn) as H0.
  rewrite <- (Z.lxor_lor _ _ H0), <- (Z.add_nocarry_lxor _ _ H0).
  by rewrite Z.shiftl_mul_pow2.
Qed.

(** The word that [VarRGBA] packs. *)
Lemma VarRGBA_word (r g b a : Z) :
  in_uint8 r -> in_uint8 g -> in_uint8 b -> in_uint8 a ->
  Z.lor (Z.lor (Z.lor (uint32 r) (uint32 (Z.shiftl (uint32 g) 8)))
               (uint32 (Z.shiftl (uint32 b) 16)))
        (uint32 (Z.shiftl (uint32 a) 24))
  = r + 2^8 * g + 2^16 * b + 2^24 * a.
Proof.
  unfold in_uint8, uint32. intros Hr Hg Hb Ha.
  rewrite !(Z.mod_small r), !(Z.mod_small g), !(Z.mod_small b), !(Z.mod_small a) by lia.
  rewrite !Z.shiftl_mul_pow2 by lia.
  rewrite !Z.mod_small by lia.
  rewrite <- !Z.shiftl_mul_pow2 by lia.
  rewrite (lor_low_shiftl r g 8) by lia.
  rewrite (lor_low_shiftl _ b 16) by lia.
  rewrite (lor_low_shiftl _ a 24) by lia.
  lia.
Qed.

(** X8. VarRGBA writes a colour as the unsigned varint of
    R + 2^8 G + 2^16 B + 2^24 A, a uint32, and two colours are written
    as the same bytes only when they are the same colour. *)
Theorem VarRGBA_packing (c c' : color.RGBA) :
  in_uint8 (color.R c) -> in_uint8 (color.G c) ->
  in_uint8 (color.B c) -> in_uint8 (color.A c) ->
  in_uint8 (color.R c') -> in_uint8 (color.G c') ->
  in_uint8 (color.B c') -> in_uint8 (color.A c') ->
  let word (k : color.RGBA) :=
    color.R k + 2^8 * color.G k + 2^16 * color.B k + 2^24 * color.A k in
  writes (VarRGBA c) tt (leb128 (word c)) /\
  0 <= word c < 2^32 /\
  (emitted (VarRGBA c) = emitted (VarRGBA c') -> c = c').
Proof.
  intros Hr Hg Hb Ha Hr' Hg' Hb' Ha' word.
  assert (Hw : forall k, in_uint8 (color.R k) -> in_uint8 (color.G k) ->
                 in_uint8 (color.B k) -> in_uint8 (color.A k) ->
                 writes (VarRGBA k) tt (leb128 (word k)) /\ 0 <= word k < 2^32).
  { intros k H1 H2 H3 H4. unfold VarRGBA. cbv zeta.
    rewrite VarRGBA_word by done. fold (word k).
    assert (0 <= word k < 2^32) by (unfold word, in_uint8 in *; lia).
    split; [apply writes_Varuint32; lia | done]. }
  destruct (Hw c Hr Hg Hb Ha) as [Wc Rc].
  destruct (Hw c' Hr' Hg' Hb' Ha') as [Wc' Rc'].
  split; [done|]. split; [done|].
  rewrite (writes_emitted _ _ _ Wc), (writes_emitted _ _ _ Wc').
  intros H.
  assert (E : word c = word c').
  { apply (leb128_self_delimiting _ _ [] []); [lia | lia |].
    by rewrite !app_nil_r. }
  destruct c as [r g b a], c' as [r' g' b' a'].
  unfold word, in_uint8 in *. cbn in *.
  assert (r = r') by lia. assert (g = g') by lia.
  assert (b = b') by lia. assert (a = a') by lia.
  by subst.
Qed.

(** X9. BlockPos writes X, Y and Z as three signed varints, 3 to 15 bytes
    in all. BlockPos and UBlockPos write the same bytes for a position
    exactly when its Y is 0. *)
Theorem BlockPos_UBlockPos (x y z : Z) :
  in_int32 x -> in_int32 y -> in_int32 z ->
  let p := protocol.mkBlockPos x y z in
  writes (BlockPos p) tt (leb128 (zigzag x) ++ leb128 (zigzag y) ++ leb128 (zigzag z)) /\
  (3 <= length (emitted (BlockPos p)) <= 15)%nat /\
  (emitted (BlockPos p) = emitted (UBlockPos p) <-> y = 0).
Proof.
  intros Hx Hy Hz p.
  assert (HB : writes (BlockPos p) tt
                 (leb128 (zigzag x) ++ leb128 (zigzag y) ++ leb128 (zigzag z))).
  { unfold BlockPos.
    apply (writes_bind _ _ tt); [by apply writes_Varint32|].
    apply (writes_bind _ _ tt); by apply writes_Varint32. }
  assert (HU : writes (UBlockPos p) tt
                 (leb128 (zigzag x) ++ leb128 (uint32 y) ++ leb128 (zigzag z))).
  { unfold UBlockPos. cbv zeta.
    apply (writes_bind _ _ tt); [by apply writes_Varint32|].
    apply (writes_bind _ _ tt); [|by apply writes_Varint32].
    apply writes_Varuint32. unfold uint32.
    apply Z.mod_pos_bound. lia. }
  split; [exact HB|].
  rewrite (writes_emitted _ _ _ HB), (writes_emitted _ _ _ HU).
  split.
  - rewrite !length_app, !length_leb128.
    pose proof (zigzag_range32 x Hx). pose proof (zigzag_range32 y Hy).
    pose proof (zigzag_range32 z Hz).
    pose proof (leb128_len_bound (zigzag x) 5
      ltac:(change (2 ^ (7 * 5)) with (2^35); lia) ltac:(lia)).
    pose proof (leb128_len_bound (zigzag y) 5
      ltac:(change (2 ^ (7 * 5)) with (2^35); lia) ltac:(lia)).
    pose proof (leb128_len_bound (zigzag z) 5
      ltac:(change (2 ^ (7 * 5)) with (2^35); lia) ltac:(lia)).
    unfold leb128_len in *. lia.
  - split.
    + intros H. apply app_inv_head in H.
      apply leb128_self_delimiting in H as [H _];
        [| apply zigzag_nonneg | unfold uint32; apply Z.mod_pos_bound; lia].
      rewrite zigzag_cases in H. unfold uint32, in_int32 in *.
      destruct (Z.ltb_spec y 0).
      * assert (E : y mod 2^32 = y + 2^32)
          by (symmetry; apply (Z.mod_unique _ _ (-1)); lia).
        lia.
      * rewrite Z.mod_small in H by lia. lia.
    + by intros ->.
Qed.

(** ** More about UUID *)

(** X10. The order of [UUID] undoes itself: for an identifier whose 16
    bytes are the bytes that [UUID] writes for [u], [UUID] writes [u]. Two
    identifiers at [x] and [y] are written as the same bytes only when they
    are the same. *)
Theorem UUID_twice (x y : loc) (u v : list Z) (s : state) :
  length u = 16%nat -> length v = 16%nat ->
  heap s !! x = Some (rev (drop 8 u ++ take 8 u)) ->
  heap s !! y = Some v ->
  fst (UUID x s) = Ret tt /\
  out (snd (UUID x s)) = out s ++ u /\
  (out (snd (UUID y s)) = out (snd (UUID x s)) -> v = rev (drop 8 u ++ take 8 u)).
Proof.
  intros Hu Hv Hx Hy.
  assert (Hw : length (rev (drop 8 u ++ take 8 u)) = 16%nat).
  { rewrite length_rev, length_app, length_drop, length_take. lia. }
  rewrite (UUID_run x _ s Hx Hw), (UUID_run y v s Hy Hv). cbn [fst snd out].
  assert (E : rev (drop 8 (rev (drop 8 u ++ take 8 u)) ++
                   take 8 (rev (drop 8 u ++ take 8 u))) = u).
  { do 16 (destruct u as [|? u]; [discriminate|]).
    by destruct u; [|discriminate]. }
  rewrite E. split; [done|]. split; [done|].
  intros H. apply app_inv_head in H. rewrite <- H.
  do 16 (destruct v as [|? v]; [discriminate|]).
  by destruct v; [|discriminate].
Qed.

(** ** More about entity metadata *)

Lemma EntityMetadata_unfold (x : gmap Z protocol.any) (order : list (Z * protocol.any)) :
  EntityMetadata x order =
    (Varuint32 (uint32 (Z.of_nat (size x))) ;; range order EntityMetadata_entry).
Proof. reflexivity. Qed.

Lemma writes_Vec3 v :
  writes (Vec3 v) tt
    (Float32_bytes (protocol.v0 v) ++ Float32_bytes (protocol.v1 v) ++
     Float32_bytes (protocol.v2 v)).
Proof.
  unfold Vec3, Float32.
  apply (writes_bind _ _ tt); [apply writes_Write|].
  apply (writes_bind _ _ tt); apply writes_Write.
Qed.

Lemma writes_BlockPos v : exists bs, writes (BlockPos v) tt bs.
Proof.
  eexists. unfold BlockPos.
  apply (writes_bind _ _ tt); [apply Varint32_writes|].
  apply (writes_bind _ _ tt); apply Varint32_writes.
Qed.

(** One entry is written, or the loop body panics, according to
    [entry_ok]. *)
Lemma EntityMetadata_entry_cases (key : Z) (value : protocol.any) :
  (entry_ok value /\ exists bs, writes (EntityMetadata_entry (key, value)) tt bs) \/
  (~ entry_ok value /\
   forall s, exists e s', EntityMetadata_entry (key, value) s = (Panic e, s')).
Proof.
  unfold EntityMetadata_entry.
  destruct value as [v|v|v|v|v|v|v|v|v|t]; cbn [entry_ok].
  1-5,7-9: left; split; [done|]; eexists;
    apply (writes_bind _ _ tt); [apply Varuint32_writes|];
    apply (writes_bind _ _ tt); [apply Varuint32_writes|].
  - apply writes_WriteByte.
  - apply writes_Write.
  - apply Varint32_writes.
  - apply writes_Write.
  - apply writes_String.
  - destruct (writes_BlockPos v) as [bs H]. rewrite <- (writes_emitted _ _ _ H) in H.
    exact H.
  - apply Varint64_writes.
  - apply writes_Vec3.
  - destruct (snd (nbt_Encode nbt_NetworkLittleEndian (protocol.ACompound v)))
      as [e|] eqn:He.
    + right. split; [done|]. intros s.
      rewrite (bind_writes _ _ _ _ _ (Varuint32_writes _)).
      rewrite (bind_writes _ _ _ _ _ (Varuint32_writes _)).
      rewrite (NBT_panics _ _ e _ He). by eexists _, _.
    + left. split; [done|]. eexists.
      apply (writes_bind _ _ tt); [apply Varuint32_writes|].
      apply (writes_bind _ _ tt); [apply Varuint32_writes|].
      by apply writes_NBT.
  - right. split; [tauto|]. intros s.
    rewrite unknown_entry_panics. by eexists _, _.
Qed.

Lemma range_returns_iff {A} (l : list A) (body : A -> W unit) (ok : A -> Prop) :
  (forall v, (ok v /\ exists bs, writes (body v) tt bs) \/
             (~ ok v /\ forall s, exists e s', body v s = (Panic e, s'))) ->
  forall s, fst (range l body s) = Ret tt <-> Forall ok l.
Proof.
  intros Hb. induction l as [|v l IH]; intros s.
  - split; [by constructor | done].
  - cbn [range]. rewrite Forall_cons.
    destruct (Hb v) as [[Hok [bs Hw]]|[Hno Hp]].
    + rewrite (bind_writes _ _ _ _ _ Hw), IH. tauto.
    + destruct (Hp s) as (e & s' & He). rewrite (bind_Panic _ _ _ _ _ He).
      cbn. split; [done | tauto].
Qed.



Lemma all_entries_ok (x : gmap Z protocol.any) (order : list (Z * protocol.any)) :
  order ≡ₚ map_to_list x ->
  Forall (fun entry => entry_ok entry.2) order <->
  (forall k v, x !! k = Some v -> entry_ok v).
Proof.
  intros Hperm. rewrite Forall_forall. split.
  - intros H k v Hk. apply (H (k, v)). rewrite Hperm. by apply elem_of_map_to_list.
  - intros H [k v] Hin. rewrite Hperm in Hin.
    apply elem_of_map_to_list in Hin. by apply (H k).
Qed.

(** X11. [EntityMetadata] returns normally exactly when every value of the
    map has one of the nine known types and every nested record among them
    is accepted by the tree encoder; this holds for every order in which
    the map is visited. *)
Theorem EntityMetadata_returns_iff
    (x : gmap Z protocol.any) (order : list (Z * protocol.any)) (s : state) :
  order ≡ₚ map_to_list x ->
  (fst (EntityMetadata x order s) = Ret tt <->
   forall k v, x !! k = Some v -> entry_ok v).
Proof.
  intros Hperm. rewrite <- (all_entries_ok x order Hperm).
  rewrite EntityMetadata_unfold.
  rewrite (bind_writes _ _ _ _ _ (Varuint32_writes _)).
  apply range_returns_iff. intros [k v]. apply EntityMetadata_entry_cases.
Qed.


(** ** More about item stacks *)

Lemma Item_air_writes (x : protocol.ItemStack) :
  protocol.NetworkID x = 0 -> writes (Item x) tt [0].
Proof.
  intros Hid. unfold Item. rewrite Hid.
  destruct (decide (0 = 0)) as [_|]; [|done].
  eapply writes_eq.
  - apply (writes_bind _ _ tt); [apply Varint32_writes | apply writes_ret].
  - reflexivity.
Qed.

Lemma not_nbt_ok (x : protocol.ItemStack) :
  ~ nbt_ok x ->
  size (protocol.NBTData x) <> 0%nat /\
  exists e, snd (nbt_Encode nbt_NetworkLittleEndian
                   (protocol.ACompound (protocol.NBTData x))) = Some e.
Proof.
  unfold nbt_ok. intros H. split; [tauto|].
  destruct (snd (nbt_Encode _ _)) as [e|]; [by exists e | tauto].
Qed.

(** [Item] writes, or panics, according to [item_ok]. *)
Lemma Item_cases (x : protocol.ItemStack) :
  (item_ok x /\ writes (Item x) tt (emitted (Item x))) \/
  (~ item_ok x /\
   exists e,
     snd (nbt_Encode nbt_NetworkLittleEndian
            (protocol.ACompound (protocol.NBTData x))) = Some e /\
     forall s, Item x s =
       (Panic (GoError e),
        State (out s ++ item_head_wire x ++ marker_wire x) (heap s))).
Proof.
  destruct (decide (protocol.NetworkID x = 0)) as [Hid|Hid].
  - left. split; [by left|].
    pose proof (Item_air_writes x Hid) as H.
    by rewrite (writes_emitted _ _ _ H).
  - destruct (decide (size (protocol.NBTData x) = 0%nat)) as [Hsz|Hsz].
    + left. split; [right; by left|].
      pose proof (Item_writes x Hid (or_introl Hsz)) as H.
      by rewrite (writes_emitted _ _ _ H).
    + destruct (snd (nbt_Encode nbt_NetworkLittleEndian
                       (protocol.ACompound (protocol.NBTData x)))) as [e|] eqn:He.
      * right. split.
        { intros [?|[?|Hn]]; [done | done |]. rewrite He in Hn. discriminate. }
        exists e. split; [done|]. intros s. by apply Item_nbt_error.
      * left. split; [right; by right|].
        pose proof (Item_writes x Hid (or_intror He)) as H.
        by rewrite (writes_emitted _ _ _ H).
Qed.

Lemma Item_fst_Ret_iff (x : protocol.ItemStack) (s : state) :
  fst (Item x s) = Ret tt <-> item_ok x.
Proof.
  destruct (Item_cases x) as [[Hok Hw]|[Hno (e & _ & Hp)]].
  - rewrite Hw. cbn. tauto.
  - rewrite Hp. cbn. split; [done | tauto].
Qed.

(** X13. [Item] returns normally exactly when the stack is an empty slot,
    has no nested record, or has one that the tree encoder accepts.
    Otherwise it panics with the error of the encoder, and the sink holds
    identifier, aux word, marker, version and what the encoder wrote, and
    nothing of the two sequences. *)
Theorem Item_returns_iff (x : protocol.ItemStack) (s : state) :
  (fst (Item x s) = Ret tt <->
   protocol.NetworkID x = 0 \/ size (protocol.NBTData x) = 0%nat \/
   snd (nbt_Encode nbt_NetworkLittleEndian
          (protocol.ACompound (protocol.NBTData x))) = None) /\
  (forall p, fst (Item x s) = Panic p ->
     exists e,
       p = GoError e /\
       snd (nbt_Encode nbt_NetworkLittleEndian
              (protocol.ACompound (protocol.NBTData x))) = Some e /\
       out (snd (Item x s)) =
         out s ++ item_head_wire x ++
         Int16_bytes (-1) ++ [1] ++
         fst (nbt_Encode nbt_NetworkLittleEndian
                (protocol.ACompound (protocol.NBTData x)))).
Proof.
  split; [apply Item_fst_Ret_iff|].
  intros p Hp.
  destruct (Item_cases x) as [[Hok Hw]|[Hno (e & He & Hrun)]].
  - rewrite Hw in Hp. discriminate.
  - rewrite Hrun in Hp |- *. cbn in Hp. injection Hp as <-.
    exists e. split; [done|]. split; [done|]. cbn [snd out].
    unfold marker_wire.
    destruct (decide (size (protocol.NBTData x) <> 0%nat)) as [|Hz]; [done|].
    destruct Hno. right. left. lia.
Qed.

Lemma int32_small z : in_int32 z -> int32 z = z.
Proof.
  unfold in_int32, int32. intros H. rewrite Z.mod_small by lia. lia.
Qed.

(** X14. When the count of a stack is in 0..255 and shifting its metadata
    by 8 bits overflows neither the type of the metadata nor int32, the aux
    word that [Item] writes after the identifier is 256 * metadata + count,
    from which both can be read back: the count is its low 8 bits and the
    metadata what is above them. *)
Theorem Item_aux_word (x : protocol.ItemStack) :
  protocol.NetworkID x <> 0 -> nbt_ok x ->
  0 <= protocol.Count x < 256 ->
  in_int32 (Z.shiftl (protocol.MetadataValue x) 8) ->
  metadata_int (Z.shiftl (protocol.MetadataValue x) 8)
    = Z.shiftl (protocol.MetadataValue x) 8 ->
  let aux := 256 * protocol.MetadataValue x + protocol.Count x in
  writes (Item x) tt
    (emitted (Varint32 (protocol.NetworkID x)) ++ leb128 (zigzag aux) ++
     marker_wire x ++
     sequence_wire signed_length (protocol.CanBePlacedOn x) ++
     sequence_wire signed_length (protocol.CanBreak x) ++
     (if decide (protocol.NetworkID x = shieldID) then emitted (Varint64 0) else [])) /\
  Z.land aux 255 = protocol.Count x /\
  Z.shiftr aux 8 = protocol.MetadataValue x.
Proof.
  intros Hid Hok Hc Hm Hmi aux.
  assert (Haux : item_aux x = aux).
  { unfold item_aux. rewrite Hmi, (int32_small _ Hm).
    rewrite (int32_small (protocol.Count x)) by (unfold in_int32; lia).
    rewrite Z.lor_comm, lor_low_shiftl by (change (2 ^ 8) with 256; lia).
    unfold aux. lia. }
  assert (Hr : in_int32 aux).
  { unfold in_int32 in *. rewrite Z.shiftl_mul_pow2 in Hm by lia.
    unfold aux. lia. }
  split.
  - eapply writes_eq; [apply (Item_writes x Hid Hok)|].
    unfold item_wire, item_head_wire. rewrite Haux, (emitted_Varint32 aux Hr).
    by rewrite <- !app_assoc.
  - change 255 with (Z.ones 8). rewrite Z.land_ones, Z.shiftr_div_pow2 by lia.
    change (2 ^ 8) with 256. unfold aux.
    rewrite Z.mul_comm, Z.add_comm, Z.mod_add, Z.div_add by lia.
    rewrite Z.mod_small, Z.div_small by lia. lia.
Qed.

(** ** The sink only grows *)

Lemma appends_writes {A} (m : W A) a bs : writes m a bs -> appends m.
Proof. intros H s. exists bs. by rewrite H. Qed.

Lemma appends_ret {A} (a : A) : appends (ret a).
Proof. intros s. exists []. by rewrite app_nil_r. Qed.

Lemma appends_panic {A} e : appends (panic (A := A) e).
Proof. intros s. exists []. by rewrite app_nil_r. Qed.

Lemma appends_bind {A B} (m : W A) (k : A -> W B) :
  appends m -> (forall a, appends (k a)) -> appends (bind m k).
Proof.
  intros Hm Hk s. destruct (Hm s) as (bs1 & Ho & Hh). unfold bind.
  destruct (m s) as [[a|e] s1]; cbn [fst snd] in *.
  - destruct (Hk a s1) as (bs2 & Ho2 & Hh2). exists (bs1 ++ bs2).
    rewrite Ho2, Hh2, Ho, Hh. by rewrite app_assoc.
  - by exists bs1.
Qed.

Lemma appends_range {A} (l : list A) (body : A -> W unit) :
  (forall v, appends (body v)) -> appends (range l body).
Proof.
  intros H. induction l as [|v l IH]; cbn [range].
  - apply appends_ret.
  - apply appends_bind; [apply H | by intros _].
Qed.

Lemma appends_NBT x encoding : appends (NBT x encoding).
Proof.
  unfold NBT, nbt_Encoder_Encode.
  apply appends_bind.
  - apply appends_bind; [eapply appends_writes, writes_Write | intros _; apply appends_ret].
  - intros [e|]; [apply appends_panic | apply appends_ret].
Qed.

Lemma appends_Varuint32 u : appends (Varuint32 u).
Proof. eapply appends_writes, Varuint32_writes. Qed.

Lemma appends_Varint32 u : appends (Varint32 u).
Proof. eapply appends_writes, Varint32_writes. Qed.

Lemma appends_String v : appends (String v).
Proof. eapply appends_writes, writes_String. Qed.

Lemma appends_Item x : appends (Item x).
Proof.
  unfold Item. cbv zeta.
  apply appends_bind; [apply appends_Varint32 | intros _].
  destruct (decide (protocol.NetworkID x = 0)); [apply appends_ret|].
  apply appends_bind; [apply appends_Varint32 | intros _].
  apply appends_bind; [|intros _].
  { destruct (decide (size (protocol.NBTData x) <> 0%nat)).
    - apply appends_bind; [eapply appends_writes, writes_Write | intros _].
      apply appends_bind; [eapply appends_writes, writes_WriteByte | intros _].
      apply appends_NBT.
    - eapply appends_writes, writes_Write. }
  apply appends_bind; [apply appends_Varint32 | intros _].
  apply appends_bind; [apply appends_range, appends_String | intros _].
  apply appends_bind; [apply appends_Varint32 | intros _].
  apply appends_bind; [apply appends_range, appends_String | intros _].
  destruct (decide (protocol.NetworkID x = shieldID));
    [eapply appends_writes, Varint64_writes | apply appends_ret].
Qed.

Lemma appends_EntityMetadata_entry entry : appends (EntityMetadata_entry entry).
Proof.
  destruct entry as [k v].
  destruct (EntityMetadata_entry_cases k v) as [[_ [bs H]]|[Hno _]].
  - by eapply appends_writes.
  - unfold EntityMetadata_entry.
    apply appends_bind; [apply appends_Varuint32 | intros _].
    destruct v; try (cbn in Hno; tauto).
    + apply appends_bind; [apply appends_Varuint32 | intros _; apply appends_NBT].
    + apply appends_panic.
Qed.

(** X15. [Item], [EntityMetadata] and the three Marshal methods only add
    to the sink: whether they return or panic, the bytes that were in the
    sink before the call are still there, in front of what was written, and
    the heap is untouched. *)
Theorem writers_only_append :
  (forall x, appends (Item x)) /\
  (forall x order, appends (EntityMetadata x order)) /\
  (forall pk, appends (MobArmourEquipment_Marshal pk)) /\
  (forall pk, appends (BlockActorData_Marshal pk)) /\
  (forall pk, appends (ContainerClose_Marshal pk)).
Proof.
  split; [apply appends_Item|].
  split.
  { intros x order. rewrite EntityMetadata_unfold.
    apply appends_bind; [apply appends_Varuint32 | intros _].
    apply appends_range, appends_EntityMetadata_entry. }
  split.
  { intros pk. unfold MobArmourEquipment_Marshal.
    apply appends_bind; [apply appends_Varuint32 | intros _].
    repeat (apply appends_bind; [apply appends_Item | intros _]).
    apply appends_Item. }
  split.
  { intros pk. unfold BlockActorData_Marshal.
    apply appends_bind; [|intros _; apply appends_NBT].
    unfold UBlockPos. cbv zeta.
    apply appends_bind; [apply appends_Varint32 | intros _].
    apply appends_bind; [apply appends_Varuint32 | intros _].
    apply appends_Varint32. }
  intros pk. eapply appends_writes, writes_WriteByte.
Qed.

(** ** The packets *)

(** X16. MobArmourEquipment.Marshal returns normally exactly when [Item]
    does for helmet, chestplate, leggings and boots; it then has written
    the runtime ID as an unsigned varint and the four item stacks in that
    order. With four empty slots that is the runtime ID and four bytes
    0x00. *)
Theorem MobArmourEquipment_Marshal_layout (pk : packet.MobArmourEquipment) (s : state) :
  0 <= packet.MAE_EntityRuntimeID pk < 2^64 ->
  let all_ok :=
    item_ok (packet.Helmet pk) /\ item_ok (packet.Chestplate pk) /\
    item_ok (packet.Leggings pk) /\ item_ok (packet.Boots pk) in
  let all_air :=
    protocol.NetworkID (packet.Helmet pk) = 0 /\
    protocol.NetworkID (packet.Chestplate pk) = 0 /\
    protocol.NetworkID (packet.Leggings pk) = 0 /\
    protocol.NetworkID (packet.Boots pk) = 0 in
  (fst (MobArmourEquipment_Marshal pk s) = Ret tt <-> all_ok) /\
  (all_ok ->
   writes (MobArmourEquipment_Marshal pk) tt
     (leb128 (packet.MAE_EntityRuntimeID pk) ++
      emitted (Item (packet.Helmet pk)) ++ emitted (Item (packet.Chestplate pk)) ++
      emitted (Item (packet.Leggings pk)) ++ emitted (Item (packet.Boots pk)))) /\
  (all_air ->
   writes (MobArmourEquipment_Marshal pk) tt
     (leb128 (packet.MAE_EntityRuntimeID pk) ++ [0; 0; 0; 0])).
Proof.
  intros Hid all_ok all_air. subst all_ok all_air.
  assert (Hlay : item_ok (packet.Helmet pk) /\ item_ok (packet.Chestplate pk) /\
                 item_ok (packet.Leggings pk) /\ item_ok (packet.Boots pk) ->
    writes (MobArmourEquipment_Marshal pk) tt
     (leb128 (packet.MAE_EntityRuntimeID pk) ++
      emitted (Item (packet.Helmet pk)) ++ emitted (Item (packet.Chestplate pk)) ++
      emitted (Item (packet.Leggings pk)) ++ emitted (Item (packet.Boots pk)))).
  { intros (H1 & H2 & H3 & H4). unfold MobArmourEquipment_Marshal.
    apply (writes_bind _ _ tt); [apply writes_Varuint64; lia|].
    destruct (Item_cases (packet.Helmet pk)) as [[_ W1]|[? _]]; [|done].
    destruct (Item_cases (packet.Chestplate pk)) as [[_ W2]|[? _]]; [|done].
    destruct (Item_cases (packet.Leggings pk)) as [[_ W3]|[? _]]; [|done].
    destruct (Item_cases (packet.Boots pk)) as [[_ W4]|[? _]]; [|done].
    apply (writes_bind _ _ tt); [exact W1|].
    apply (writes_bind _ _ tt); [exact W2|].
    apply (writes_bind _ _ tt); [exact W3 | exact W4]. }
  split; [|split; [exact Hlay|]].
  - split.
    + unfold MobArmourEquipment_Marshal.
      rewrite (bind_writes _ _ _ _ _ (writes_Varuint64 _ (proj1 Hid))).
      intros H.
      destruct (Item_cases (packet.Helmet pk)) as [[O1 W1]|[_ (e & _ & P)]];
        [|by rewrite (bind_Panic _ _ _ _ _ (P _)) in H].
      rewrite (bind_writes _ _ _ _ _ W1) in H.
      destruct (Item_cases (packet.Chestplate pk)) as [[O2 W2]|[_ (e & _ & P)]];
        [|by rewrite (bind_Panic _ _ _ _ _ (P _)) in H].
      rewrite (bind_writes _ _ _ _ _ W2) in H.
      destruct (Item_cases (packet.Leggings pk)) as [[O3 W3]|[_ (e & _ & P)]];
        [|by rewrite (bind_Panic _ _ _ _ _ (P _)) in H].
      rewrite (bind_writes _ _ _ _ _ W3) in H.
      by apply Item_fst_Ret_iff in H.
    + intros H. by rewrite (Hlay H s).
  - intros (A1 & A2 & A3 & A4).
    eapply writes_eq; [apply Hlay; repeat split; by left|].
    rewrite (writes_emitted _ _ _ (Item_air_writes _ A1)),
            (writes_emitted _ _ _ (Item_air_writes _ A2)),
            (writes_emitted _ _ _ (Item_air_writes _ A3)),
            (writes_emitted _ _ _ (Item_air_writes _ A4)).
    done.
Qed.

(** X17. BlockActorData.Marshal writes the position with an unsigned Y and
    then whatever the tree encoder writes for the data, also for an empty
    map; it returns normally when the encoder returns no error and panics
    with the encoder's error otherwise, the position being in the sink
    either way. *)
Theorem BlockActorData_Marshal_layout (pk : packet.BlockActorData) (s : state) :
  let pos := packet.Position pk in
  let data := protocol.ACompound (packet.BAD_NBTData pk) in
  in_int32 (protocol.bp0 pos) -> 0 <= protocol.bp1 pos < 2^31 ->
  in_int32 (protocol.bp2 pos) ->
  BlockActorData_Marshal pk s =
    (match snd (nbt_Encode nbt_NetworkLittleEndian data) with
     | None => Ret tt
     | Some e => Panic (GoError e)
     end,
     State (out s ++
            (leb128 (zigzag (protocol.bp0 pos)) ++ leb128 (protocol.bp1 pos) ++
             leb128 (zigzag (protocol.bp2 pos))) ++
            fst (nbt_Encode nbt_NetworkLittleEndian data))
           (heap s)).
Proof.
  intros pos data Hx Hy Hz. subst pos data.
  unfold BlockActorData_Marshal.
  assert (HU : writes (UBlockPos (packet.Position pk)) tt
    (leb128 (zigzag (protocol.bp0 (packet.Position pk))) ++
     leb128 (protocol.bp1 (packet.Position pk)) ++
     leb128 (zigzag (protocol.bp2 (packet.Position pk))))).
  { unfold UBlockPos. cbv zeta. unfold uint32 at 1.
    rewrite (Z.mod_small (protocol.bp1 _)) by lia.
    apply (writes_bind _ _ tt); [by apply writes_Varint32|].
    apply (writes_bind _ _ tt); [apply writes_Varuint32; lia | by apply writes_Varint32]. }
  rewrite (bind_writes _ _ _ _ _ HU).
  destruct (snd (nbt_Encode nbt_NetworkLittleEndian
                   (protocol.ACompound (packet.BAD_NBTData pk)))) as [e|] eqn:He.
  - rewrite (NBT_panics _ _ e _ He). cbn [out heap]. by rewrite <- !app_assoc.
  - rewrite (writes_NBT _ _ He). cbn [out heap]. by rewrite <- !app_assoc.
Qed.

End Writer.

(** ** The theorems at concrete inputs, with the sample externals *)

(** C4 at -300 (int32) and 2^40 (int64). *)
Lemma Varint_zigzag_leb128_witness :
  in_int32 (-300) /\ in_int64 (2^40) /\
  writes (Varint32 (-300)) tt [215; 4] /\
  writes (Varint64 (2^40)) tt [128; 128; 128; 128; 128; 64].
Proof.
  assert (H32 : in_int32 (-300)) by (unfold in_int32; lia).
  assert (H64 : in_int64 (2^40)) by (unfold in_int64; lia).
  split; [exact H32|]. split; [exact H64|].
  destruct (Varint_zigzag_leb128 (-300) (2^40) H32 H64) as (A & B & _).
  split; [exact A | exact B].
Defined.

(** C9 at the position (1, -1, 2). *)
Lemma UBlockPos_negative_y_witness :
  in_int32 1 /\ in_int32 (-1) /\ in_int32 2 /\ -1 < 0 /\
  writes (UBlockPos (protocol.mkBlockPos 1 (-1) 2)) tt [2; 255; 255; 255; 255; 15; 4].
Proof.
  assert (H1 : in_int32 1) by (unfold in_int32; lia).
  assert (H2 : in_int32 (-1)) by (unfold in_int32; lia).
  assert (H3 : in_int32 2) by (unfold in_int32; lia).
  assert (H4 : -1 < 0) by lia.
  repeat (split; [assumption|]).
  exact (UBlockPos_negative_y 1 (-1) 2 H1 H2 H3 H4).
Defined.

(** C2 at an empty slot that has a count, a nested record and a block
    name. *)
Lemma Item_empty_slot_witness :
  protocol.NetworkID Sample.air = 0 /\
  Item (ext := Sample.ext) Sample.air Sample.s0 = (Ret tt, State [0] ∅).
Proof.
  assert (H : protocol.NetworkID Sample.air = 0) by reflexivity.
  split; [exact H|].
  exact (Item_empty_slot (ext := Sample.ext) Sample.air H Sample.s0).
Defined.

(** C3 at a shield. *)
Lemma Item_shield_trailing_tick_witness :
  protocol.NetworkID Sample.shield <> 0 /\
  nbt_ok (ext := Sample.ext) Sample.shield /\
  protocol.NetworkID Sample.shield = shieldID /\
  writes (Item (ext := Sample.ext) Sample.shield) tt
    [130; 8; 134; 8; 0; 0; 4; 1; 97; 2; 98; 99; 2; 1; 100; 0].
Proof.
  assert (H0 : protocol.NetworkID Sample.shield <> 0) by (vm_compute; discriminate).
  assert (Hok : nbt_ok (ext := Sample.ext) Sample.shield) by (left; reflexivity).
  assert (Hid : protocol.NetworkID Sample.shield = shieldID) by reflexivity.
  repeat (split; [assumption|]).
  destruct (Item_shield_trailing_tick (ext := Sample.ext) Sample.shield H0 Hok)
    as (A & _).
  exact (A Hid).
Defined.

(** C8 at a shield. *)
Lemma Item_shield_tick_zero_witness :
  protocol.NetworkID Sample.shield = shieldID /\
  nbt_ok (ext := Sample.ext) Sample.shield /\
  last (out (snd (Item (ext := Sample.ext) Sample.shield Sample.s0))) = Some 0.
Proof.
  assert (Hok : nbt_ok (ext := Sample.ext) Sample.shield) by (left; reflexivity).
  assert (Hid : protocol.NetworkID Sample.shield = shieldID) by reflexivity.
  repeat (split; [assumption|]).
  destruct (Item_shield_tick_zero (ext := Sample.ext) Sample.shield Sample.s0 Hid Hok)
    as (_ & _ & _ & A).
  exact A.
Defined.

(** C5 at a stack with a nested record of one entry. *)
Lemma Item_nested_record_marker_witness :
  protocol.NetworkID Sample.tagged <> 0 /\
  size (protocol.NBTData Sample.tagged) <> 0%nat /\
  nbt_Encode (Externals := Sample.ext) nbt_NetworkLittleEndian
    (protocol.ACompound (protocol.NBTData Sample.tagged)) = ([10; 0; 0], None) /\
  writes (Item (ext := Sample.ext) Sample.tagged) tt
    [10; 134; 8; 255; 255; 1; 10; 0; 0; 4; 1; 97; 2; 98; 99; 2; 1; 100].
Proof.
  assert (H0 : protocol.NetworkID Sample.tagged <> 0) by (vm_compute; discriminate).
  assert (Hsz : size (protocol.NBTData Sample.tagged) <> 0%nat)
    by (vm_compute; discriminate).
  assert (Henc : nbt_Encode (Externals := Sample.ext) nbt_NetworkLittleEndian
            (protocol.ACompound (protocol.NBTData Sample.tagged)) = ([10; 0; 0], None))
    by (vm_compute; reflexivity).
  repeat (split; [assumption|]).
  destruct (Item_nested_record_marker (ext := Sample.ext) Sample.tagged [10; 0; 0] H0)
    as (A & _).
  exact (A Hsz Henc).
Defined.

(** C1 (amended) at a stack with one block to be placed on: its count 1 is
    written as the byte 2. *)
Lemma Item_sequences_signed_length_witness :
  protocol.NetworkID Sample.stone <> 0 /\
  nbt_ok (ext := Sample.ext) Sample.stone /\
  writes (Item (ext := Sample.ext) Sample.stone) tt [2; 2; 0; 0; 2; 1; 97; 0].
Proof.
  assert (H0 : protocol.NetworkID Sample.stone <> 0) by (vm_compute; discriminate).
  assert (Hok : nbt_ok (ext := Sample.ext) Sample.stone) by (left; reflexivity).
  repeat (split; [assumption|]).
  exact (Item_sequences_signed_length (ext := Sample.ext) Sample.stone H0 Hok).
Defined.

(** C1 as stated fails. For the stack with NetworkID 1, count 1, no nested
    record, CanBePlacedOn = ["a"] and CanBreak = [], unsigned varints of the
    element counts would make bytes 02 02 00 00 01 01 61 00; [Item] writes
    02 02 00 00 02 01 61 00. *)
Lemma Item_sequences_unsigned_length_fails :
  let x := Sample.stone in
  let unsigned :=
    item_head_wire (ext := Sample.ext) x ++ marker_wire (ext := Sample.ext) x ++
    (leb128 (Z.of_nat (length (protocol.CanBePlacedOn x))) ++
     concat ((fun v => emitted (String v)) <$> protocol.CanBePlacedOn x)) ++
    (leb128 (Z.of_nat (length (protocol.CanBreak x))) ++
     concat ((fun v => emitted (String v)) <$> protocol.CanBreak x)) ++
    (if decide (protocol.NetworkID x = shieldID) then emitted (Varint64 0) else []) in
  protocol.NetworkID x <> 0 /\
  nbt_ok (ext := Sample.ext) x /\
  unsigned = [2; 2; 0; 0; 1; 1; 97; 0] /\
  Item (ext := Sample.ext) x Sample.s0 = (Ret tt, State [2; 2; 0; 0; 2; 1; 97; 0] ∅) /\
  ~ writes (Item (ext := Sample.ext) x) tt unsigned.
Proof.
  cbv zeta.
  split; [vm_compute; discriminate|].
  split; [left; reflexivity|].
  split; [vm_compute; reflexivity|].
  split; [vm_compute; reflexivity|].
  intros H. specialize (H Sample.s0). vm_compute in H. discriminate H.
Qed.

(** C7 at a map whose one value is a bool. *)
Lemma EntityMetadata_unknown_type_panics_witness :
  [(7, protocol.AOther "bool")] ≡ₚ map_to_list Sample.attrs /\
  Sample.attrs !! 7 = Some (protocol.AOther "bool") /\
  EntityMetadata (ext := Sample.ext) Sample.attrs [(7, protocol.AOther "bool")] Sample.s0 =
    (Panic (GoError "unknown value 'bool' for enum type 'entity metadata'"),
     State [1; 7] ∅).
Proof.
  assert (Hp : [(7, protocol.AOther "bool")] ≡ₚ map_to_list Sample.attrs)
    by (vm_compute; reflexivity).
  assert (Hk : Sample.attrs !! 7 = Some (protocol.AOther "bool")) by reflexivity.
  repeat (split; [assumption|]).
  destruct (EntityMetadata_unknown_type_panics (ext := Sample.ext)
              Sample.attrs [(7, protocol.AOther "bool")] 7 "bool" Sample.s0 Hp Hk)
    as (_ & A).
  exact (A [] [] (State [1] ∅) eq_refl eq_refl).
Defined.

(** C6 at the identifier 00 01 .. 0f. *)
Lemma UUID_wire_order_witness :
  heap Sample.id_state !! 3%nat = Some Sample.id_bytes /\
  length Sample.id_bytes = 16%nat /\
  out (snd (UUID (ext := Sample.ext) 3%nat Sample.id_state)) =
    [7; 6; 5; 4; 3; 2; 1; 0; 15; 14; 13; 12; 11; 10; 9; 8].
Proof.
  assert (Hx : heap Sample.id_state !! 3%nat = Some Sample.id_bytes) by reflexivity.
  assert (Hl : length Sample.id_bytes = 16%nat) by reflexivity.
  repeat (split; [assumption|]).
  destruct (UUID_wire_order (ext := Sample.ext) 3%nat Sample.id_bytes Sample.id_state Hx Hl)
    as (wire & _ & Hout & _ & Hw & _).
  rewrite Hout, Hw. reflexivity.
Defined.

(** C10 at the identifier 00 01 .. 0f. *)
Lemma UUID_leaves_input_witness :
  heap Sample.id_state !! 3%nat = Some Sample.id_bytes /\
  length Sample.id_bytes = 16%nat /\
  heap (snd (UUID (ext := Sample.ext) 3%nat Sample.id_state)) !! 3%nat =
    Some [0; 1; 2; 3; 4; 5; 6; 7; 8; 9; 10; 11; 12; 13; 14; 15].
Proof.
  assert (Hx : heap Sample.id_state !! 3%nat = Some Sample.id_bytes) by reflexivity.
  assert (Hl : length Sample.id_bytes = 16%nat) by reflexivity.
  repeat (split; [assumption|]).
  destruct (UUID_leaves_input (ext := Sample.ext) 3%nat Sample.id_bytes Sample.id_state Hx Hl)
    as (_ & A & _).
  exact A.
Defined.

(** X1 at the largest uint32 and the largest uint64. *)
Lemma Varuint_byte_count_witness :
  0 <= 2^32 - 1 < 2^32 /\ 0 <= 2^64 - 1 < 2^64 /\
  (1 <= length (emitted (Varuint32 (2^32 - 1))) <= 5)%nat /\
  (1 <= length (emitted (Varuint64 (2^64 - 1))) <= 10)%nat.
Proof.
  assert (H1 : 0 <= 2^32 - 1 < 2^32) by lia.
  assert (H2 : 0 <= 2^64 - 1 < 2^64) by lia.
  split; [exact H1|]. split; [exact H2|].
  exact (Varuint_byte_count (2^32 - 1) (2^64 - 1) H1 H2).
Defined.

(** X2 at the least int32 and the least int64. *)
Lemma Varint_byte_count_witness :
  in_int32 (-2^31) /\ in_int64 (-2^63) /\
  (length (emitted (Varint32 (-2^31))) = 1%nat <-> -64 <= -2^31 < 64).
Proof.
  assert (H1 : in_int32 (-2^31)) by (unfold in_int32; lia).
  assert (H2 : in_int64 (-2^63)) by (unfold in_int64; lia).
  split; [exact H1|]. split; [exact H2|].
  destruct (Varint_byte_count (-2^31) (-2^63) H1 H2) as (_ & _ & A).
  exact A.
Defined.

(** X3 at 300 followed by the byte 7. *)
Lemma Varuint_self_delimiting_witness :
  0 <= 300 /\
  emitted (Varuint32 300) ++ [7] = [172; 2; 7] /\
  (300 = 300 /\ [7] = [7]).
Proof.
  assert (H : 0 <= 300) by lia.
  split; [exact H|]. split; [reflexivity|].
  destruct (Varuint_self_delimiting 300 300 [7] [7] H H) as [A _].
  exact (A eq_refl).
Defined.

(** X4 at -300 followed by the byte 7. *)
Lemma Varint_self_delimiting_witness :
  in_int32 (-300) /\ in_int64 (-300) /\
  emitted (Varint32 (-300)) ++ [7] = [215; 4; 7] /\
  (-300 = -300 /\ [7] = [7]).
Proof.
  assert (H1 : in_int32 (-300)) by (unfold in_int32; lia).
  assert (H2 : in_int64 (-300)) by (unfold in_int64; lia).
  split; [exact H1|]. split; [exact H2|]. split; [reflexivity|].
  destruct (Varint_self_delimiting (-300) (-300) (-300) (-300) [7] [7] H1 H1 H2 H2)
    as [A _].
  exact (A eq_refl).
Defined.

(** X5 at -300. *)
Lemma Varint32_Varint64_agree_witness :
  in_int32 (-300) /\ emitted (Varint32 (-300)) = emitted (Varint64 (-300)).
Proof.
  assert (H1 : in_int32 (-300)) by (unfold in_int32; lia).
  split; [exact H1|]. exact (Varint32_Varint64_agree (-300) H1).
Defined.

(** X6 at the string "hi". *)
Lemma String_layout_witness :
  Z.of_nat (String.length "hi") < 2^32 /\
  writes (String "hi") tt [2; 104; 105].
Proof.
  assert (H : Z.of_nat (String.length "hi") < 2^32) by (vm_compute; reflexivity).
  split; [exact H|].
  destruct (String_layout "hi" H) as (A & _). exact A.
Defined.

(** X7 at the string "hi" followed by the byte 7. *)
Lemma String_self_delimiting_witness :
  Z.of_nat (String.length "hi") < 2^32 /\
  emitted (String "hi") ++ [7] = [2; 104; 105; 7] /\
  ("hi" = "hi" /\ [7] = [7]).
Proof.
  assert (H : Z.of_nat (String.length "hi") < 2^32) by (vm_compute; reflexivity).
  split; [exact H|]. split; [reflexivity|].
  exact (String_self_delimiting "hi" "hi" [7] [7] H H eq_refl).
Defined.

(** X8 at the colour (1, 2, 3, 4). *)
Lemma VarRGBA_packing_witness :
  in_uint8 1 /\ in_uint8 2 /\ in_uint8 3 /\ in_uint8 4 /\
  writes (VarRGBA (color.mkRGBA 1 2 3 4)) tt (leb128 67305985).
Proof.
  assert (H1 : in_uint8 1) by (unfold in_uint8; lia).
  assert (H2 : in_uint8 2) by (unfold in_uint8; lia).
  assert (H3 : in_uint8 3) by (unfold in_uint8; lia).
  assert (H4 : in_uint8 4) by (unfold in_uint8; lia).
  repeat (split; [assumption|]).
  destruct (VarRGBA_packing (color.mkRGBA 1 2 3 4) (color.mkRGBA 1 2 3 4)
              H1 H2 H3 H4 H1 H2 H3 H4) as (A & _).
  exact A.
Defined.

(** X9 at the position (1, 0, 2). *)
Lemma BlockPos_UBlockPos_witness :
  in_int32 1 /\ in_int32 0 /\ in_int32 2 /\
  writes (BlockPos (protocol.mkBlockPos 1 0 2)) tt [2; 0; 4] /\
  emitted (UBlockPos (protocol.mkBlockPos 1 0 2)) = [2; 0; 4].
Proof.
  assert (H1 : in_int32 1) by (unfold in_int32; lia).
  assert (H0 : in_int32 0) by (unfold in_int32; lia).
  assert (H2 : in_int32 2) by (unfold in_int32; lia).
  repeat (split; [assumption|]).
  destruct (BlockPos_UBlockPos 1 0 2 H1 H0 H2) as (A & _ & B).
  split; [exact A|]. rewrite <- (proj2 B eq_refl). reflexivity.
Defined.

(** X10 at the identifier 07 06 .. 00 0f 0e .. 08, which is written as
    00 01 .. 0f. *)
Lemma UUID_twice_witness :
  let u := [7; 6; 5; 4; 3; 2; 1; 0; 15; 14; 13; 12; 11; 10; 9; 8] in
  length u = 16%nat /\ length Sample.id_bytes = 16%nat /\
  heap Sample.id_state !! 3%nat = Some (rev (drop 8 u ++ take 8 u)) /\
  heap Sample.id_state !! 3%nat = Some Sample.id_bytes /\
  out (snd (UUID (ext := Sample.ext) 3%nat Sample.id_state)) = u.
Proof.
  cbv zeta.
  assert (Hu : length [7; 6; 5; 4; 3; 2; 1; 0; 15; 14; 13; 12; 11; 10; 9; 8] = 16%nat)
    by reflexivity.
  assert (Hv : length Sample.id_bytes = 16%nat) by reflexivity.
  assert (Hx : heap Sample.id_state !! 3%nat =
               Some (rev (drop 8 [7; 6; 5; 4; 3; 2; 1; 0; 15; 14; 13; 12; 11; 10; 9; 8] ++
                          take 8 [7; 6; 5; 4; 3; 2; 1; 0; 15; 14; 13; 12; 11; 10; 9; 8])))
    by reflexivity.
  assert (Hy : heap Sample.id_state !! 3%nat = Some Sample.id_bytes) by reflexivity.
  repeat (split; [assumption|]).
  destruct (UUID_twice (ext := Sample.ext) 3%nat 3%nat _ _ Sample.id_state Hu Hv Hx Hy)
    as (_ & A & _).
  exact A.
Defined.

(** X11 at a map with a bool among its values, in the order of its
    list. *)
Lemma EntityMetadata_returns_iff_witness :
  map_to_list Sample.attrs ≡ₚ map_to_list Sample.attrs /\
  (fst (EntityMetadata (ext := Sample.ext) Sample.attrs (map_to_list Sample.attrs)
          Sample.s0) = Ret tt <->
   forall k v, Sample.attrs !! k = Some v -> entry_ok (ext := Sample.ext) v).
Proof.
  assert (Hp : map_to_list Sample.attrs ≡ₚ map_to_list Sample.attrs) by reflexivity.
  split; [exact Hp|].
  exact (EntityMetadata_returns_iff (ext := Sample.ext) Sample.attrs
           (map_to_list Sample.attrs) Sample.s0 Hp).
Defined.


(** X14 at the shield: metadata 2 and count 3 make the aux word 515. *)
Lemma Item_aux_word_witness :
  protocol.NetworkID Sample.shield <> 0 /\
  nbt_ok (ext := Sample.ext) Sample.shield /\
  0 <= protocol.Count Sample.shield < 256 /\
  in_int32 (Z.shiftl (protocol.MetadataValue Sample.shield) 8) /\
  metadata_int (Externals := Sample.ext) (Z.shiftl (protocol.MetadataValue Sample.shield) 8)
    = Z.shiftl (protocol.MetadataValue Sample.shield) 8 /\
  Z.land 515 255 = 3 /\ Z.shiftr 515 8 = 2.
Proof.
  assert (H0 : protocol.NetworkID Sample.shield <> 0) by (vm_compute; discriminate).
  assert (Hok : nbt_ok (ext := Sample.ext) Sample.shield) by (left; reflexivity).
  assert (Hc : 0 <= protocol.Count Sample.shield < 256)
    by (change (protocol.Count Sample.shield) with 3; lia).
  assert (Hm : in_int32 (Z.shiftl (protocol.MetadataValue Sample.shield) 8))
    by (change (Z.shiftl (protocol.MetadataValue Sample.shield) 8) with 512;
        unfold in_int32; lia).
  assert (Hi : metadata_int (Externals := Sample.ext)
                 (Z.shiftl (protocol.MetadataValue Sample.shield) 8)
               = Z.shiftl (protocol.MetadataValue Sample.shield) 8) by reflexivity.
  repeat (split; [assumption|]).
  destruct (Item_aux_word (ext := Sample.ext) Sample.shield H0 Hok Hc Hm Hi)
    as (_ & A & B).
  split; [exact A | exact B].
Defined.

(** X16 at an entity with a shield, an empty slot, a plain stack and a
    stack with a nested record. *)
Lemma MobArmourEquipment_Marshal_layout_witness :
  0 <= packet.MAE_EntityRuntimeID Sample.armour < 2^64 /\
  fst (MobArmourEquipment_Marshal (ext := Sample.ext) Sample.armour Sample.s0) = Ret tt.
Proof.
  assert (H : 0 <= packet.MAE_EntityRuntimeID Sample.armour < 2^64)
    by (change (packet.MAE_EntityRuntimeID Sample.armour) with 300; lia).
  split; [exact H|].
  destruct (MobArmourEquipment_Marshal_layout (ext := Sample.ext) Sample.armour
              Sample.s0 H) as (A & _).
  apply A.
  split; [right; left; reflexivity|].
  split; [left; reflexivity|].
  split; [right; left; reflexivity|].
  right; right; vm_compute; reflexivity.
Defined.

(** X17 at a block actor at (-1, 64, 2). *)
Lemma BlockActorData_Marshal_layout_witness :
  in_int32 (-1) /\ 0 <= 64 < 2^31 /\ in_int32 2 /\
  BlockActorData_Marshal (ext := Sample.ext) Sample.chest Sample.s0 =
    (Ret tt, State [1; 64; 4; 10; 0; 0] ∅).
Proof.
  assert (H1 : in_int32 (-1)) by (unfold in_int32; lia).
  assert (H2 : 0 <= 64 < 2^31) by lia.
  assert (H3 : in_int32 2) by (unfold in_int32; lia).
  repeat (split; [assumption|]).
  exact (BlockActorData_Marshal_layout (ext := Sample.ext) Sample.chest Sample.s0 H1 H2 H3).
Defined.

End Writer.
